(** * Gemini chat client: transcript, request orchestration, preferences

    A shallow embedding of [src/types.ts], [src/hooks/useSettings.ts] and the
    handlers of [src/App.tsx] ([handleSend], [handleExportChat],
    [handleClearHistory], the composer handlers), followed by the properties
    of the session that the specification states.

    Conventions.
    - A JavaScript string is a [string]: the bytes of its UTF-8 encoding.
      Concatenation, [join], [startsWith] and [includes] with an ASCII
      argument agree with the UTF-16 operations on every well-formed string.
    - React state is a record ([App]); a [setX] call is a record update.  The
      updates a handler queues between two suspension points are applied in
      order and become visible together, which is one transition here.
    - [handleSend] is an [async] function.  Its synchronous prefix runs inside
      the click or key event; at each [await] the rest of the function is kept
      as a [Frame] (the live local variables and the values the closure
      captured at the call) until the awaited promise settles.
    - The remote SDK and the [FileReader] are the environment: they settle an
      awaited promise with a value or reject it.  Every call of
      [ai.models.generateContent] is recorded in the ghost field [calls]. *)

From Stdlib Require Import Ascii List Bool Arith Lia.
From Stdlib Require String.
From stdpp Require Import base option list strings gmap.
Import ListNotations.

(** ** JavaScript strings and arrays *)

Module JS.

Definition LF : string := String (ascii_of_nat 10) "".

(** Truthiness of a string: every string but the empty one. *)
Definition truthy (s : string) : bool :=
  match s with EmptyString => false | String _ _ => true end.

(** [s.startsWith(p)] *)
Definition startsWith (s p : string) : bool := String.prefix p s.

(** [s.includes(needle)] *)
Fixpoint includes (s needle : string) : bool :=
  String.prefix needle s ||
  match s with
  | EmptyString => false
  | String _ rest => includes rest needle
  end.

(** [xs.includes(x)] on an array of strings. *)
Definition array_includes (xs : list string) (x : string) : bool :=
  existsb (String.eqb x) xs.

(** [xs.join(sep)] *)
Definition join (xs : list string) (sep : string) : string :=
  String.concat sep xs.

(** [xs.slice(0, -1)]: everything but the last element; [[]] stays [[]]. *)
Definition slice_0_m1 {A} (xs : list A) : list A := removelast xs.

(** [s.split(c)] for a separator of one character. *)
Fixpoint split (s : string) (sep : ascii) : list string :=
  match s with
  | EmptyString => [""]
  | String c rest =>
      if Ascii.eqb c sep then "" :: split rest sep
      else match split rest sep with
           | piece :: pieces => String c piece :: pieces
           | [] => [String c ""]
           end
  end.

(** White space of ECMAScript ([WhiteSpace] and [LineTerminator]), each
    code point as the bytes of its UTF-8 encoding: U+0009..U+000D, U+0020,
    U+00A0, U+1680, U+2000..U+200A, U+2028, U+2029, U+202F, U+205F, U+3000
    and U+FEFF. *)
Definition WHITESPACE : list (list nat) :=
  [ [9]; [10]; [11]; [12]; [13]; [32]; [194; 160]; [225; 154; 128];
    [226; 128; 128]; [226; 128; 129]; [226; 128; 130]; [226; 128; 131];
    [226; 128; 132]; [226; 128; 133]; [226; 128; 134]; [226; 128; 135];
    [226; 128; 136]; [226; 128; 137]; [226; 128; 138]; [226; 128; 168];
    [226; 128; 169]; [226; 128; 175]; [226; 129; 159]; [227; 128; 128];
    [239; 187; 191] ].

Definition is_ws (table : list (list nat)) (bytes : list ascii) : bool :=
  existsb (fun w => if decide (w = map nat_of_ascii bytes) then true else false)
          table.

(** Drops the white space at the front of [s]; [table] lists the encodings
    to drop (at most three bytes each). *)
Fixpoint trim_front (table : list (list nat)) (s : string) : string :=
  match s with
  | EmptyString => s
  | String a r1 =>
      if is_ws table [a] then trim_front table r1
      else match r1 with
           | EmptyString => s
           | String b r2 =>
               if is_ws table [a; b] then trim_front table r2
               else match r2 with
                    | EmptyString => s
                    | String c r3 =>
                        if is_ws table [a; b; c] then trim_front table r3
                        else s
                    end
           end
  end.

Fixpoint reverse (s : string) : string :=
  match s with
  | EmptyString => EmptyString
  | String c r => reverse r +:+ String c EmptyString
  end.

Definition trimStart (s : string) : string := trim_front WHITESPACE s.
Definition trimEnd (s : string) : string :=
  reverse (trim_front (map (@rev nat) WHITESPACE) (reverse s)).

(** [s.trim()] *)
Definition trim (s : string) : string := trimEnd (trimStart s).

(** Optional chaining [x?.f], where [f] may itself be missing. *)
Definition chain {A B} (x : option A) (f : A -> option B) : option B :=
  match x with Some v => f v | None => None end.

(** A value interpolated in a template literal; [undefined] prints as the
    word. *)
Definition interpolate (v : option string) : string :=
  match v with Some s => s | None => "undefined" end.

End JS.

(** ** [src/types.ts] *)

Inductive ConversationState :=
  IDLE | CONNECTING | LISTENING | PROCESSING | SPEAKING | TYPING | ERROR.

Record GroundingSource := { uri : string; title : string }.

Record UploadedFile := { name : string }.

Inductive Source := user | gemini.

Record TranscriptEntry := {
  source : Source;
  text : string;
  isTyping : option bool;
  imageUrl : option string;
  sources : option (list GroundingSource);
  files : option (list UploadedFile)
}.

Inductive Theme := light | dark.
Inductive Voice := Zephyr | Puck | Charon | Kore | Fenrir.
Inductive TextModel := gemini_2_5_flash | gemini_2_5_pro.
Inductive ChatMode := mode_default | mode_search | mode_image | mode_reasoning.

Record Settings := {
  systemPrompt : string;
  voice : Voice;
  textModel : TextModel;
  theme : Theme;
  sendOnEnter : bool
}.

#[global] Instance ConversationState_eq_dec : EqDecision ConversationState.
Proof. solve_decision. Defined.
#[global] Instance Source_eq_dec : EqDecision Source.
Proof. solve_decision. Defined.
#[global] Instance Theme_eq_dec : EqDecision Theme.
Proof. solve_decision. Defined.
#[global] Instance ChatMode_eq_dec : EqDecision ChatMode.
Proof. solve_decision. Defined.

Definition Source_tag (s : Source) : string :=
  match s with user => "user" | gemini => "gemini" end.

Definition TextModel_id (m : TextModel) : string :=
  match m with
  | gemini_2_5_flash => "gemini-2.5-flash"
  | gemini_2_5_pro => "gemini-2.5-pro"
  end.

(** A [Partial<Settings>]: an absent property is [None]. *)
Record PartialSettings := {
  p_systemPrompt : option string;
  p_voice : option Voice;
  p_textModel : option TextModel;
  p_theme : option Theme;
  p_sendOnEnter : option bool
}.

(** ** Values of the platform and of the remote SDK *)

(** A DOM [File].  [id] stands for the identity of the object, which
    [handleRemoveFile] compares with [!==]. *)
Module File.
Record t := { id : nat; name : string; type : string }.
End File.

Record InlineData := { mimeType : string; data : option string }.

Inductive Part :=
| text_part (text : string)
| inline_part (inlineData : InlineData).

Inductive Contents :=
| contents_string (s : string)
| contents_parts (parts : list Part).

Inductive Tool := googleSearch.
Inductive Modality := IMAGE.

Record Config := {
  tools : option (list Tool);
  responseModalities : option (list Modality);
  systemInstruction : option string
}.

(** The argument of [ai.models.generateContent]. *)
Record Request := {
  model : string;
  contents : Contents;
  config : option Config
}.

(** The fields of a [GenerateContentResponse] that the handler reads, each
    optional where the handler reaches it through [?.]. *)
Record Blob := { blob_mimeType : option string; blob_data : option string }.
Record ResponsePart := { part_inlineData : option Blob }.
Record Content := { content_parts : option (list ResponsePart) }.

(** Modelled from the spec: the SDK's declaration of a grounding chunk is not
    among the sources.  Its [web] field is undefined or a citation with a
    URI and a title, which is what the type guard of the handler takes a
    defined value to be. *)
Record GroundingChunk := { web : option GroundingSource }.
Record GroundingMetadata := { groundingChunks : option (list GroundingChunk) }.
Record Candidate := {
  content : option Content;
  groundingMetadata : option GroundingMetadata
}.
Record Response := {
  response_text : string;
  candidates : option (list Candidate)
}.

(** What a [catch] clause receives: an [Error] with its message, or any
    other value (a [FileReader] rejects with a [ProgressEvent]). *)
Inductive Thrown :=
| Error (message : string)
| not_an_Error.

(** The promise a suspended [handleSend] waits for. *)
Inductive Await :=
| await_fileToBase64 (file : File.t)
| await_readFileAsText (file : File.t)
| await_generateContent (req : Request).

(** How an awaited promise settles. *)
Inductive Settled :=
| reader_result (result : string)
| response (r : Response)
| rejected (e : Thrown).

(** ** React state of [App] *)

(** The state values [handleSend] closes over when it is called. *)
Record Closure := {
  cl_inputText : string;
  cl_chatMode : ChatMode;
  cl_settings : Settings
}.

(** The arrays [handleSend] builds in its [try] block. *)
Record Locals := {
  textParts : list string;
  imageParts : list InlineData;
  unsupportedFiles : list string
}.

(** A [handleSend] call suspended at an [await]. *)
Record Frame := {
  closure : Closure;
  locals : Locals;
  remaining : list File.t;
  awaiting : Await
}.

Record App := {
  transcript : list TranscriptEntry;
  conversationState : ConversationState;
  chatMode : ChatMode;
  inputText : string;
  uploadedFiles : list File.t;
  isKeySelected : bool;
  settings : Settings;
  inflight : list Frame;
  calls : list Request
}.

Definition setTranscript (f : list TranscriptEntry -> list TranscriptEntry)
    (a : App) : App :=
  {| transcript := f (transcript a);
     conversationState := conversationState a; chatMode := chatMode a;
     inputText := inputText a; uploadedFiles := uploadedFiles a;
     isKeySelected := isKeySelected a; settings := settings a;
     inflight := inflight a; calls := calls a |}.

Definition setConversationState (c : ConversationState) (a : App) : App :=
  {| transcript := transcript a;
     conversationState := c; chatMode := chatMode a;
     inputText := inputText a; uploadedFiles := uploadedFiles a;
     isKeySelected := isKeySelected a; settings := settings a;
     inflight := inflight a; calls := calls a |}.

Definition setChatMode (m : ChatMode) (a : App) : App :=
  {| transcript := transcript a;
     conversationState := conversationState a; chatMode := m;
     inputText := inputText a; uploadedFiles := uploadedFiles a;
     isKeySelected := isKeySelected a; settings := settings a;
     inflight := inflight a; calls := calls a |}.

Definition setInputText (s : string) (a : App) : App :=
  {| transcript := transcript a;
     conversationState := conversationState a; chatMode := chatMode a;
     inputText := s; uploadedFiles := uploadedFiles a;
     isKeySelected := isKeySelected a; settings := settings a;
     inflight := inflight a; calls := calls a |}.

Definition setUploadedFiles (f : list File.t -> list File.t) (a : App) : App :=
  {| transcript := transcript a;
     conversationState := conversationState a; chatMode := chatMode a;
     inputText := inputText a; uploadedFiles := f (uploadedFiles a);
     isKeySelected := isKeySelected a; settings := settings a;
     inflight := inflight a; calls := calls a |}.

Definition setIsKeySelected (b : bool) (a : App) : App :=
  {| transcript := transcript a;
     conversationState := conversationState a; chatMode := chatMode a;
     inputText := inputText a; uploadedFiles := uploadedFiles a;
     isKeySelected := b; settings := settings a;
     inflight := inflight a; calls := calls a |}.

Definition setSettings (f : Settings -> Settings) (a : App) : App :=
  {| transcript := transcript a;
     conversationState := conversationState a; chatMode := chatMode a;
     inputText := inputText a; uploadedFiles := uploadedFiles a;
     isKeySelected := isKeySelected a; settings := f (settings a);
     inflight := inflight a; calls := calls a |}.

Definition set_inflight (f : list Frame -> list Frame) (a : App) : App :=
  {| transcript := transcript a;
     conversationState := conversationState a; chatMode := chatMode a;
     inputText := inputText a; uploadedFiles := uploadedFiles a;
     isKeySelected := isKeySelected a; settings := settings a;
     inflight := f (inflight a); calls := calls a |}.

Definition record_call (req : Request) (a : App) : App :=
  {| transcript := transcript a;
     conversationState := conversationState a; chatMode := chatMode a;
     inputText := inputText a; uploadedFiles := uploadedFiles a;
     isKeySelected := isKeySelected a; settings := settings a;
     inflight := inflight a; calls := calls a ++ [req] |}.

(** ** [src/hooks/useSettings.ts]: the merge of [updateSettings] *)

(** [{ ...base, ...over }] *)
Definition spread (base : Settings) (over : PartialSettings) : Settings :=
  {| systemPrompt := default (systemPrompt base) (p_systemPrompt over);
     voice := default (voice base) (p_voice over);
     textModel := default (textModel base) (p_textModel over);
     theme := default (theme base) (p_theme over);
     sendOnEnter := default (sendOnEnter base) (p_sendOnEnter over) |}.

(** [updateSettings(newSettings)]: [setSettings(prev => ({...prev, ...newSettings}))] *)
Definition updateSettings (newSettings : PartialSettings) (prev : Settings)
    : Settings :=
  spread prev newSettings.

(** ** [src/App.tsx]: transcript entries *)

(** The local [finalEntry : Omit<TranscriptEntry, 'source'>]. *)
Record FinalEntry := {
  fe_text : string;
  fe_imageUrl : option string;
  fe_sources : option (list GroundingSource)
}.

(** [{ text }] *)
Definition final_text (t : string) : FinalEntry :=
  {| fe_text := t; fe_imageUrl := None; fe_sources := None |}.

(** [{ source: 'gemini', ...finalEntry }] *)
Definition gemini_entry (fe : FinalEntry) : TranscriptEntry :=
  {| source := gemini; text := fe_text fe; isTyping := None;
     imageUrl := fe_imageUrl fe; sources := fe_sources fe; files := None |}.

(** [{ source: 'user', text: inputText, files: filesForTranscript }] *)
Definition userMessage (inputText : string) (uploadedFiles : list File.t)
    : TranscriptEntry :=
  let filesForTranscript := map (fun f => {| name := File.name f |}) uploadedFiles in
  {| source := user; text := inputText; isTyping := None; imageUrl := None;
     sources := None; files := Some filesForTranscript |}.

(** [{ source: 'gemini', text: '', isTyping: true }] *)
Definition geminiTypingMessage : TranscriptEntry :=
  {| source := gemini; text := ""; isTyping := Some true; imageUrl := None;
     sources := None; files := None |}.

(** [setTranscript(prev => [...prev.slice(0, -1), entry])] *)
Definition replace_last (entry : TranscriptEntry) (a : App) : App :=
  setTranscript (fun prev => JS.slice_0_m1 prev ++ [entry]) a.

(** ** [handleExportChat]: the exported text *)

Definition export_block (entry : TranscriptEntry) : string :=
  let content := "[" +:+ Source_tag (source entry) +:+ "]" +:+ JS.LF in
  let content :=
    match files entry with
    | Some fs =>
        if 0 <? length fs
        then content +:+ "Files: " +:+ JS.join (map name fs) ", " +:+ JS.LF
        else content
    | None => content
    end in
  content +:+ text entry.

Definition exported (transcript : list TranscriptEntry) : string :=
  JS.join (map export_block transcript) (JS.LF +:+ JS.LF).

(** ** [handleSend] *)

Definition SUPPORTED_IMAGE_MIMES : list string :=
  ["image/png"; "image/jpeg"; "image/webp"; "image/heic"; "image/heif"].

Definition DQUOTE : string := String (ascii_of_nat 34) "".

(** The template pushed in front of [textParts] for a text file. *)
Definition file_block (name textContent : string) : string :=
  "--- START OF FILE: " +:+ name +:+ " ---" +:+ JS.LF +:+ textContent +:+ JS.LF +:+
  "--- END OF FILE: " +:+ name +:+ " ---" +:+ JS.LF +:+ JS.LF.

Definition unsupported_message (unsupportedFiles : list string) : string :=
  "Lỗi: Loại tệp không được hỗ trợ cho: " +:+ JS.join unsupportedFiles ", " +:+
  ". Chỉ hỗ trợ các tệp hình ảnh và văn bản.".

Definition generating_message (inputText : string) : string :=
  "Đang tạo ảnh cho: " +:+ DQUOTE +:+ inputText +:+ DQUOTE +:+ "...".

Definition UNKNOWN_ERROR : string := "Đã xảy ra lỗi không xác định.".
Definition KEY_ERROR : string :=
  "Lỗi: Khóa API không hợp lệ. Vui lòng chọn lại khóa.".
Definition IMAGE_FAILED : string := "Không thể tạo ảnh. Vui lòng thử lại.".

(** The [finally] clause. *)
Definition finally_block (a : App) : App := setConversationState IDLE a.

(** The test of the [catch] clause on the message. *)
Definition key_rejected (errorMessage : string) : bool :=
  JS.includes errorMessage "API key not valid" ||
  JS.includes errorMessage "Requested entity was not found".

Definition errorMessage_of (error : Thrown) : string :=
  match error with
  | Error message => message
  | not_an_Error => UNKNOWN_ERROR
  end.

(** The text of the entry the [catch] clause writes. *)
Definition catch_text (error : Thrown) : string :=
  if key_rejected (errorMessage_of error) then KEY_ERROR
  else "Lỗi: " +:+ errorMessage_of error.

(** The [catch] clause. *)
Definition catch_block (error : Thrown) (a : App) : App :=
  let errorMessage := errorMessage_of error in
  if key_rejected errorMessage
  then setIsKeySelected false (replace_last (gemini_entry (final_text KEY_ERROR)) a)
  else replace_last (gemini_entry (final_text ("Lỗi: " +:+ errorMessage))) a.

(** Leaves the function at an [await]: the frame joins the suspended calls. *)
Definition suspend (c : Closure) (l : Locals) (rest : list File.t)
    (aw : Await) (a : App) : App :=
  set_inflight
    (fun frames =>
       frames ++ [{| closure := c; locals := l; remaining := rest; awaiting := aw |}])
    a.

(** [await ai.models.generateContent(req)] *)
Definition call_generateContent (c : Closure) (l : Locals) (req : Request)
    (a : App) : App :=
  suspend c l [] (await_generateContent req) (record_call req a).

(** The request body built after the loop. *)
Definition combinedText (l : Locals) : string := JS.join (textParts l) "".

Definition contents_of (l : Locals) : Contents :=
  if 0 <? length (imageParts l)
  then contents_parts (text_part (combinedText l) :: map inline_part (imageParts l))
  else contents_string (combinedText l).

Definition search_request (l : Locals) : Request :=
  {| model := "gemini-2.5-flash"; contents := contents_of l;
     config := Some {| tools := Some [googleSearch]; responseModalities := None;
                       systemInstruction := None |} |}.

Definition image_request (c : Closure) : Request :=
  {| model := "gemini-2.5-flash-image";
     contents := contents_parts [text_part (cl_inputText c)];
     config := Some {| tools := None; responseModalities := Some [IMAGE];
                       systemInstruction := None |} |}.

Definition reasoning_request (l : Locals) : Request :=
  {| model := "gemini-2.5-pro"; contents := contents_of l; config := None |}.

Definition default_request (c : Closure) (l : Locals) : Request :=
  {| model := if 0 <? length (imageParts l) then "gemini-2.5-flash"
              else TextModel_id (textModel (cl_settings c));
     contents := contents_of l;
     config := Some {| tools := None; responseModalities := None;
                       systemInstruction := Some (systemPrompt (cl_settings c)) |} |}.

(** From the end of the [for] loop to the [await] of the remote call. *)
Definition after_loop (c : Closure) (l : Locals) (a : App) : App :=
  if 0 <? length (unsupportedFiles l) then
    let errorMessage := unsupported_message (unsupportedFiles l) in
    finally_block
      (setConversationState IDLE
         (replace_last (gemini_entry (final_text errorMessage)) a))
  else
    match cl_chatMode c with
    | mode_search => call_generateContent c l (search_request l) a
    | mode_image =>
        let finalEntry := final_text (generating_message (cl_inputText c)) in
        call_generateContent c l (image_request c)
          (replace_last (gemini_entry finalEntry) a)
    | mode_reasoning => call_generateContent c l (reasoning_request l) a
    | mode_default => call_generateContent c l (default_request c l) a
    end.

(** The [for (const file of filesToProcess)] loop, up to its next [await]. *)
Fixpoint for_files (c : Closure) (l : Locals) (filesToProcess : list File.t)
    (a : App) : App :=
  match filesToProcess with
  | [] => after_loop c l a
  | file :: rest =>
      if JS.array_includes SUPPORTED_IMAGE_MIMES (File.type file) then
        suspend c l rest (await_fileToBase64 file) a
      else if JS.startsWith (File.type file) "text/" then
        suspend c l rest (await_readFileAsText file) a
      else
        for_files c
          {| textParts := textParts l; imageParts := imageParts l;
             unsupportedFiles := unsupportedFiles l ++ [File.name file] |}
          rest a
  end.

Definition handleSend (a : App) : App :=
  if (negb (JS.truthy (JS.trim (inputText a))) && (length (uploadedFiles a) =? 0))
     || bool_decide (conversationState a = PROCESSING)
  then a
  else
    let c := {| cl_inputText := inputText a; cl_chatMode := chatMode a;
                cl_settings := settings a |} in
    let newTranscript := transcript a ++ [userMessage (inputText a) (uploadedFiles a)] in
    let filesToProcess := uploadedFiles a in
    let a := setTranscript (fun _ => newTranscript) a in
    let a := setInputText "" a in
    let a := setUploadedFiles (fun _ => []) a in
    let a := setConversationState PROCESSING a in
    let a := setTranscript (fun prev => prev ++ [geminiTypingMessage]) a in
    for_files c
      {| textParts := [cl_inputText c]; imageParts := []; unsupportedFiles := [] |}
      filesToProcess a.

(** [array.filter(x => x !== undefined)] *)
Definition filter_defined {A} (xs : list (option A)) : list A :=
  flat_map (fun x => match x with Some v => [v] | None => [] end) xs.

(** [response.candidates?.[0]?.groundingMetadata?.groundingChunks
      ?.map(chunk => chunk.web).filter(source => source !== undefined) ?? []] *)
Definition grounding_sources (r : Response) : list GroundingSource :=
  match JS.chain (JS.chain (JS.chain (candidates r) head) groundingMetadata)
                 groundingChunks with
  | Some chunks => filter_defined (map web chunks)
  | None => []
  end.

(** [response.candidates?.[0]?.content?.parts?.find(part => part.inlineData)] *)
Definition find_imagePart (r : Response) : option ResponsePart :=
  JS.chain (JS.chain (JS.chain (JS.chain (candidates r) head) content) content_parts)
           (find (fun part => bool_decide (is_Some (part_inlineData part)))).

(** The entry a resolved remote call leaves in [finalEntry]. *)
Definition finalEntry_of (mode : ChatMode) (r : Response) : FinalEntry :=
  match mode with
  | mode_search =>
      {| fe_text := response_text r; fe_imageUrl := None;
         fe_sources := Some (grounding_sources r) |}
  | mode_image =>
      match JS.chain (find_imagePart r) part_inlineData with
      | Some inlineData =>
          let base64Image := blob_data inlineData in
          let mimeType := blob_mimeType inlineData in
          {| fe_text := "";
             fe_imageUrl := Some ("data:" +:+ JS.interpolate mimeType +:+ ";base64,"
                                  +:+ JS.interpolate base64Image);
             fe_sources := None |}
      | None => final_text IMAGE_FAILED
      end
  | mode_reasoning => final_text (response_text r)
  | mode_default => final_text (response_text r)
  end.

(** [fileToBase64]: the part of the data URL after the first comma. *)
Definition fileToBase64 (file : File.t) (result : string) : InlineData :=
  let base64Data := JS.split result "," !! 1 in
  {| mimeType := File.type file; data := base64Data |}.

(** Continues a suspended call with the outcome of the awaited promise.
    [None]: the outcome is not one this promise can have. *)
Definition resume (fr : Frame) (v : Settled) (a : App) : option App :=
  let c := closure fr in
  let l := locals fr in
  match awaiting fr, v with
  | await_fileToBase64 file, reader_result result =>
      Some (for_files c
              {| textParts := textParts l;
                 imageParts := imageParts l ++ [fileToBase64 file result];
                 unsupportedFiles := unsupportedFiles l |}
              (remaining fr) a)
  | await_readFileAsText file, reader_result textContent =>
      Some (for_files c
              {| textParts := file_block (File.name file) textContent :: textParts l;
                 imageParts := imageParts l;
                 unsupportedFiles := unsupportedFiles l |}
              (remaining fr) a)
  | await_generateContent _, response r =>
      Some (finally_block
              (replace_last (gemini_entry (finalEntry_of (cl_chatMode c) r)) a))
  | _, rejected error => Some (finally_block (catch_block error a))
  | _, _ => None
  end.

(** ** The other handlers and the event loop *)

Definition handleClearHistory (a : App) : App := setTranscript (fun _ => []) a.

(** [handleFileChange]; [None] is a null [event.target.files]. *)
Definition handleFileChange (selected : option (list File.t)) (a : App) : App :=
  match selected with
  | Some fs => setUploadedFiles (fun prev => prev ++ fs) a
  | None => a
  end.

Definition handleRemoveFile (fileToRemove : File.t) (a : App) : App :=
  setUploadedFiles
    (fun prev =>
       List.filter (fun file => negb (File.id file =? File.id fileToRemove)) prev)
    a.

Definition handleKeyDown (key : string) (shiftKey : bool) (a : App) : App :=
  if String.eqb key "Enter" && sendOnEnter (settings a) && negb shiftKey
  then handleSend a
  else a.

(** [handleSelectKey] and the key check at mount: the flag is raised when the
    host object answers, and left alone when it throws. *)
Definition key_answer (ok : bool) (a : App) : App :=
  if ok then setIsKeySelected true a else a.

Inductive Event :=
| click_send
| key_down (key : string) (shiftKey : bool)
| change_input (value : string)
| change_files (selected : option (list File.t))
| remove_file (file : File.t)
| click_mode (mode : ChatMode)
| clear_history
| update_settings (newSettings : PartialSettings)
| key_selected (ok : bool)
| settle (i : nat) (v : Settled).

Definition apply_event (e : Event) (a : App) : App :=
  match e with
  | click_send => handleSend a
  | key_down key shiftKey => handleKeyDown key shiftKey a
  | change_input value => setInputText value a
  | change_files selected => handleFileChange selected a
  | remove_file file => handleRemoveFile file a
  | click_mode mode => setChatMode mode a
  | clear_history => handleClearHistory a
  | update_settings newSettings => setSettings (updateSettings newSettings) a
  | key_selected ok => key_answer ok a
  | settle i v =>
      match inflight a !! i with
      | Some fr => default a (resume fr v (set_inflight (delete i) a))
      | None => a
      end
  end.

(** The state after a sequence of events, oldest first. *)
Definition run (events : list Event) (a : App) : App :=
  fold_left (fun a e => apply_event e a) events a.

(** The state in which [App] mounts. *)
Definition mount (stored : Settings) : App :=
  {| transcript := []; conversationState := IDLE; chatMode := mode_default;
     inputText := ""; uploadedFiles := []; isKeySelected := false;
     settings := stored; inflight := []; calls := [] |}.

(** ** One send run to its end *)

(** What the platform answers to each request of a send. *)
Record Environment := {
  readAsDataURL : File.t -> Thrown + string;
  readAsText : File.t -> Thrown + string;
  generateContent : Request -> Thrown + Response
}.

Definition answer (env : Environment) (aw : Await) : Settled :=
  match aw with
  | await_fileToBase64 file =>
      match readAsDataURL env file with
      | inr result => reader_result result
      | inl e => rejected e
      end
  | await_readFileAsText file =>
      match readAsText env file with
      | inr result => reader_result result
      | inl e => rejected e
      end
  | await_generateContent req =>
      match generateContent env req with
      | inr r => response r
      | inl e => rejected e
      end
  end.

(** Settles the oldest suspended call with the environment's answer, at most
    [fuel] times. *)
Fixpoint drain (env : Environment) (fuel : nat) (a : App) : App :=
  match fuel with
  | 0 => a
  | S fuel' =>
      match inflight a with
      | [] => a
      | fr :: _ => drain env fuel' (apply_event (settle 0 (answer env (awaiting fr))) a)
      end
  end.

(** A send with nothing else happening until it ends: one suspension per
    attached file at most, and one for the remote call. *)
Definition send (env : Environment) (a : App) : App :=
  drain env (S (length (uploadedFiles a))) (handleSend a).

(** Number of placeholder entries of a transcript. *)
Definition is_placeholder (e : TranscriptEntry) : bool :=
  bool_decide (isTyping e = Some true).

Definition placeholders (t : list TranscriptEntry) : nat :=
  length (List.filter is_placeholder t).

(** ** [src/hooks/useSettings.ts]: the hook and [window.localStorage] *)

Definition SETTINGS_KEY : string := "gemini-audio-app-settings".

Definition defaultSettings : Settings :=
  {| systemPrompt := "Bạn là một trợ lý AI thân thiện và hữu ích. Hãy giữ cho câu trả lời của bạn ngắn gọn và mang tính trò chuyện.";
     voice := Zephyr;
     textModel := gemini_2_5_flash;
     theme := dark;
     sendOnEnter := true |}.

(** The object with every property of [s] present. *)
Definition complete (s : Settings) : PartialSettings :=
  {| p_systemPrompt := Some (systemPrompt s); p_voice := Some (voice s);
     p_textModel := Some (textModel s); p_theme := Some (theme s);
     p_sendOnEnter := Some (sendOnEnter s) |}.

(** [window.localStorage]: its items, and the two ways an access throws
    (the storage is disabled; the quota is exhausted). *)
Module Storage.
Record t := { items : gmap string string; disabled : bool; full : bool }.

Definition getItem (ls : t) (key : string) : Thrown + option string :=
  if disabled ls then inl not_an_Error else inr (items ls !! key).

Definition setItem (ls : t) (key value : string) : Thrown + t :=
  if disabled ls || full ls then inl not_an_Error
  else inr {| items := <[key := value]> (items ls);
              disabled := disabled ls; full := full ls |}.
End Storage.

(** The state of the hook, with the two things its effects write. *)
Record Hook := {
  hook_settings : Settings;
  localStorage : Storage.t;
  root_dark : bool
}.

Section useSettings.

(** [JSON.stringify] on a settings object and [JSON.parse] on a stored
    string ([None]: it throws), as the platform provides them.  The parsed
    object is taken to be well typed. *)
Variable JSON_stringify : Settings -> string.
Variable JSON_parse : string -> option PartialSettings.

(** The initializer of [useState]. *)
Definition load (ls : Storage.t) : Settings :=
  match Storage.getItem ls SETTINGS_KEY with
  | inr (Some storedSettings) =>
      if JS.truthy storedSettings then
        match JSON_parse storedSettings with
        | Some parsed => spread defaultSettings parsed
        | None => defaultSettings
        end
      else defaultSettings
  | inr None => defaultSettings
  | inl _ => defaultSettings
  end.

(** The effect on [[settings]]. *)
Definition persist_effect (h : Hook) : Hook :=
  match Storage.setItem (localStorage h) SETTINGS_KEY
          (JSON_stringify (hook_settings h)) with
  | inr ls => {| hook_settings := hook_settings h; localStorage := ls;
                 root_dark := root_dark h |}
  | inl _ => h
  end.

(** The effect on [[settings.theme]]. *)
Definition theme_effect (h : Hook) : Hook :=
  {| hook_settings := hook_settings h; localStorage := localStorage h;
     root_dark := if decide (theme (hook_settings h) = light) then false else true |}.

(** First render of the hook in a page whose root element has the class
    [dark] or not. *)
Definition useSettings (ls : Storage.t) (root : bool) : Hook :=
  theme_effect
    (persist_effect
       {| hook_settings := load ls; localStorage := ls; root_dark := root |}).

(** [updateSettings(newSettings)] and the render that follows. *)
Definition update (newSettings : PartialSettings) (h : Hook) : Hook :=
  let next := updateSettings newSettings (hook_settings h) in
  let h' := persist_effect
              {| hook_settings := next; localStorage := localStorage h;
                 root_dark := root_dark h |} in
  if decide (theme next = theme (hook_settings h)) then h' else theme_effect h'.

(** Reloading the page: the hook mounts again on what the storage holds. *)
Definition reload (root : bool) (h : Hook) : Hook :=
  useSettings (localStorage h) root.

End useSettings.

(** [{ theme: 'light' }] *)
Definition theme_light : PartialSettings :=
  {| p_systemPrompt := None; p_voice := None; p_textModel := None;
     p_theme := Some light; p_sendOnEnter := None |}.

(** ** A JSON codec for settings objects

    The text [JSON.stringify] produces for a settings object, and a reader
    of flat objects of strings and booleans written without white space.
    It instantiates the platform's functions in closed examples. *)

Module JSON.

Inductive value := str (s : string) | boolean (b : bool).

Definition BACKSLASH : string := String (ascii_of_nat 92) "".

Definition hex (n : nat) : ascii :=
  ascii_of_nat (if n <? 10 then 48 + n else 87 + n).

Definition unhex (c : ascii) : option nat :=
  let n := nat_of_ascii c in
  if (48 <=? n) && (n <=? 57) then Some (n - 48)
  else if (97 <=? n) && (n <=? 102) then Some (n - 87)
  else if (65 <=? n) && (n <=? 70) then Some (n - 55)
  else None.

(** [QuoteJSONString] on one character. *)
Definition quote_char (c : ascii) : string :=
  let n := nat_of_ascii c in
  if n =? 34 then BACKSLASH +:+ DQUOTE
  else if n =? 92 then BACKSLASH +:+ BACKSLASH
  else if n =? 8 then BACKSLASH +:+ "b"
  else if n =? 9 then BACKSLASH +:+ "t"
  else if n =? 10 then BACKSLASH +:+ "n"
  else if n =? 12 then BACKSLASH +:+ "f"
  else if n =? 13 then BACKSLASH +:+ "r"
  else if n <? 32 then
    BACKSLASH +:+ "u00" +:+ String (hex (n / 16)) (String (hex (n mod 16)) "")
  else String c "".

Fixpoint quote_body (s : string) : string :=
  match s with
  | EmptyString => ""
  | String c r => quote_char c +:+ quote_body r
  end.

Definition quote (s : string) : string := DQUOTE +:+ quote_body s +:+ DQUOTE.

Definition Voice_name (v : Voice) : string :=
  match v with
  | Zephyr => "Zephyr" | Puck => "Puck" | Charon => "Charon"
  | Kore => "Kore" | Fenrir => "Fenrir"
  end.

Definition Theme_name (t : Theme) : string :=
  match t with light => "light" | dark => "dark" end.

Definition stringify (s : Settings) : string :=
  "{" +:+ quote "systemPrompt" +:+ ":" +:+ quote (systemPrompt s) +:+ "," +:+
  quote "voice" +:+ ":" +:+ quote (Voice_name (voice s)) +:+ "," +:+
  quote "textModel" +:+ ":" +:+ quote (TextModel_id (textModel s)) +:+ "," +:+
  quote "theme" +:+ ":" +:+ quote (Theme_name (theme s)) +:+ "," +:+
  quote "sendOnEnter" +:+ ":" +:+ (if sendOnEnter s then "true" else "false") +:+
  "}".

Definition simple_escape (e : ascii) : option ascii :=
  let n := nat_of_ascii e in
  if n =? 34 then Some e
  else if n =? 92 then Some e
  else if n =? 47 then Some e
  else if n =? 98 then Some (ascii_of_nat 8)
  else if n =? 116 then Some (ascii_of_nat 9)
  else if n =? 110 then Some (ascii_of_nat 10)
  else if n =? 102 then Some (ascii_of_nat 12)
  else if n =? 114 then Some (ascii_of_nat 13)
  else None.

Definition push (c : ascii) (r : option (string * string))
    : option (string * string) :=
  match r with Some (s, rest) => Some (String c s, rest) | None => None end.

(** Reads a string literal after its opening quote: the string and what
    follows the closing quote.  A [\u] escape is read below U+0080 only. *)
Fixpoint read_string (s : string) : option (string * string) :=
  match s with
  | EmptyString => None
  | String c r =>
      if nat_of_ascii c =? 34 then Some ("", r)
      else if nat_of_ascii c =? 92 then
        match r with
        | EmptyString => None
        | String e r2 =>
            match simple_escape e with
            | Some d => push d (read_string r2)
            | None =>
                match r2 with
                | String h1 (String h2 (String h3 (String h4 r3))) =>
                    match unhex h1, unhex h2, unhex h3, unhex h4 with
                    | Some 0, Some 0, Some a, Some b =>
                        if (nat_of_ascii e =? 117) && (16 * a + b <? 128)
                        then push (ascii_of_nat (16 * a + b)) (read_string r3)
                        else None
                    | _, _, _, _ => None
                    end
                | _ => None
                end
            end
        end
      else if nat_of_ascii c <? 32 then None
      else push c (read_string r)
  end.

Definition read_value (s : string) : option (value * string) :=
  match s with
  | String c r =>
      if nat_of_ascii c =? 34 then
        match read_string r with
        | Some (v, rest) => Some (str v, rest)
        | None => None
        end
      else if String.prefix "true" s then Some (boolean true, String.substring 4 (String.length s - 4) s)
      else if String.prefix "false" s then Some (boolean false, String.substring 5 (String.length s - 5) s)
      else None
  | EmptyString => None
  end.

Fixpoint read_members (fuel : nat) (s : string) : option (list (string * value)) :=
  match fuel, s with
  | S fuel', String q r =>
      if nat_of_ascii q =? 34 then
        match read_string r with
        | Some (key, String colon r2) =>
            if nat_of_ascii colon =? 58 then
              match read_value r2 with
              | Some (v, String d r3) =>
                  if nat_of_ascii d =? 44 then
                    match read_members fuel' r3 with
                    | Some ms => Some ((key, v) :: ms)
                    | None => None
                    end
                  else if (nat_of_ascii d =? 125) && negb (JS.truthy r3)
                  then Some [(key, v)]
                  else None
              | _ => None
              end
            else None
        | _ => None
        end
      else None
  | _, _ => None
  end.

Definition read_object (s : string) : option (list (string * value)) :=
  match s with
  | String c r =>
      if nat_of_ascii c =? 123 then
        if String.eqb r "}" then Some [] else read_members (String.length s) r
      else None
  | EmptyString => None
  end.

Fixpoint property (key : string) (ms : list (string * value)) : option value :=
  match ms with
  | [] => None
  | (k, v) :: rest =>
      match property key rest with
      | Some later => Some later
      | None => if String.eqb k key then Some v else None
      end
  end.

(** An absent property is [Some None]; a property of the wrong type is
    [None]. *)
Definition typed {A} (read : value -> option A) (key : string)
    (ms : list (string * value)) : option (option A) :=
  match property key ms with
  | None => Some None
  | Some v => match read v with Some x => Some (Some x) | None => None end
  end.

Definition as_string (v : value) : option string :=
  match v with str s => Some s | boolean _ => None end.

Definition as_boolean (v : value) : option bool :=
  match v with boolean b => Some b | str _ => None end.

Definition as_enum {A} (names : list (string * A)) (v : value) : option A :=
  match v with
  | str s => snd <$> find (fun p => String.eqb (fst p) s) names
  | boolean _ => None
  end.

Definition parse (s : string) : option PartialSettings :=
  match read_object s with
  | Some ms =>
      match typed as_string "systemPrompt" ms,
            typed (as_enum [("Zephyr", Zephyr); ("Puck", Puck); ("Charon", Charon);
                            ("Kore", Kore); ("Fenrir", Fenrir)]) "voice" ms,
            typed (as_enum [("gemini-2.5-flash", gemini_2_5_flash);
                            ("gemini-2.5-pro", gemini_2_5_pro)]) "textModel" ms,
            typed (as_enum [("light", light); ("dark", dark)]) "theme" ms,
            typed as_boolean "sendOnEnter" ms with
      | Some sp, Some v, Some tm, Some th, Some se =>
          Some {| p_systemPrompt := sp; p_voice := v; p_textModel := tm;
                  p_theme := th; p_sendOnEnter := se |}
      | _, _, _, _, _ => None
      end
  | None => None
  end.

End JSON.

(** ** The classification loop in direct style

    The same loop with the environment's answers substituted for the
    [await]s: either the first rejection, or the three arrays at the end. *)

Definition supported_image (file : File.t) : bool :=
  JS.array_includes SUPPORTED_IMAGE_MIMES (File.type file).

Definition text_file (file : File.t) : bool :=
  JS.startsWith (File.type file) "text/".

Definition unsupported (file : File.t) : bool :=
  negb (supported_image file) && negb (text_file file).

Fixpoint classify (env : Environment) (l : Locals) (filesToProcess : list File.t)
    : Thrown + Locals :=
  match filesToProcess with
  | [] => inr l
  | file :: rest =>
      if supported_image file then
        match readAsDataURL env file with
        | inr result =>
            classify env
              {| textParts := textParts l;
                 imageParts := imageParts l ++ [fileToBase64 file result];
                 unsupportedFiles := unsupportedFiles l |} rest
        | inl e => inl e
        end
      else if text_file file then
        match readAsText env file with
        | inr textContent =>
            classify env
              {| textParts := file_block (File.name file) textContent :: textParts l;
                 imageParts := imageParts l;
                 unsupportedFiles := unsupportedFiles l |} rest
        | inl e => inl e
        end
      else
        classify env
          {| textParts := textParts l; imageParts := imageParts l;
             unsupportedFiles := unsupportedFiles l ++ [File.name file] |} rest
  end.

(** The request [handleSend] sends in each mode. *)
Definition request_of (c : Closure) (l : Locals) : Request :=
  match cl_chatMode c with
  | mode_search => search_request l
  | mode_image => image_request c
  | mode_reasoning => reasoning_request l
  | mode_default => default_request c l
  end.

(** The state before the remote call: in image mode the placeholder has
    already given way to the progress message. *)
Definition before_call (c : Closure) (a : App) : App :=
  match cl_chatMode c with
  | mode_image =>
      replace_last (gemini_entry (final_text (generating_message (cl_inputText c)))) a
  | _ => a
  end.

(** From the end of the loop to the end of the send. *)
Definition conclude (env : Environment) (c : Closure) (l : Locals) (a : App) : App :=
  if 0 <? length (unsupportedFiles l) then
    finally_block
      (setConversationState IDLE
         (replace_last
            (gemini_entry (final_text (unsupported_message (unsupportedFiles l)))) a))
  else
    let req := request_of c l in
    let a := record_call req (before_call c a) in
    match generateContent env req with
    | inr r =>
        finally_block
          (replace_last (gemini_entry (finalEntry_of (cl_chatMode c) r)) a)
    | inl e => finally_block (catch_block e a)
    end.

(** The whole send in direct style, from the state in which the [try] block
    is entered. *)
Definition complete_send (env : Environment) (c : Closure) (l : Locals)
    (filesToProcess : list File.t) (a : App) : App :=
  match classify env l filesToProcess with
  | inr l' => conclude env c l' a
  | inl e => finally_block (catch_block e a)
  end.

(** The guard of [handleSend]. *)
Definition rejected_send (a : App) : bool :=
  (negb (JS.truthy (JS.trim (inputText a))) && (length (uploadedFiles a) =? 0))
  || bool_decide (conversationState a = PROCESSING).

(** The closure of an accepted send and the state in which its [try] block
    starts. *)
Definition closure_of (a : App) : Closure :=
  {| cl_inputText := inputText a; cl_chatMode := chatMode a;
     cl_settings := settings a |}.

Definition locals_of (a : App) : Locals :=
  {| textParts := [inputText a]; imageParts := []; unsupportedFiles := [] |}.

Definition entered (a : App) : App :=
  {| transcript := transcript a ++
                   [userMessage (inputText a) (uploadedFiles a); geminiTypingMessage];
     conversationState := PROCESSING; chatMode := chatMode a;
     inputText := ""; uploadedFiles := [];
     isKeySelected := isKeySelected a; settings := settings a;
     inflight := inflight a; calls := calls a |}.

(** Every read the loop asks for succeeds. *)
Definition reads_succeed (env : Environment) (fs : list File.t) : Prop :=
  ∀ file, file ∈ fs →
    (supported_image file = true → ∃ result, readAsDataURL env file = inr result) ∧
    (text_file file = true → ∃ result, readAsText env file = inr result).

(** The text of a request body: the string itself, or its first part. *)
Definition contents_text (cs : Contents) : option string :=
  match cs with
  | contents_string s => Some s
  | contents_parts (text_part t :: _) => Some t
  | contents_parts _ => None
  end.

(** ** The session invariant *)

(** No entry of [t] is a placeholder. *)
Definition quiet (t : list TranscriptEntry) : Prop :=
  Forall (λ e, is_placeholder e = false) t.

(** What holds between two transitions: a placeholder can only be the last
    entry, and only while the state is [PROCESSING]; the state is
    [PROCESSING] exactly while a call is suspended; no two calls are. *)
Record consistent (a : App) : Prop := {
  consistent_front : quiet (removelast (transcript a));
  consistent_tail :
    ∀ e, last (transcript a) = Some e → is_placeholder e = true →
         conversationState a = PROCESSING;
  consistent_busy : conversationState a = PROCESSING ↔ inflight a ≠ [];
  consistent_one : length (inflight a) ≤ 1;
  consistent_states :
    conversationState a = IDLE ∨ conversationState a = PROCESSING
}.

(** The state inside [handleSend] between two suspensions. *)
Definition running (a : App) : Prop :=
  quiet (removelast (transcript a)) ∧ conversationState a = PROCESSING ∧
  inflight a = [].

(** ** Closed examples *)

Definition example_settings : Settings :=
  {| systemPrompt := "Be brief."; voice := Kore; textModel := gemini_2_5_pro;
     theme := dark; sendOnEnter := true |}.

Definition notes_txt : File.t :=
  {| File.id := 1; File.name := "notes.txt"; File.type := "text/plain" |}.
Definition photo_png : File.t :=
  {| File.id := 2; File.name := "photo.png"; File.type := "image/png" |}.
Definition paper_pdf : File.t :=
  {| File.id := 3; File.name := "paper.pdf"; File.type := "application/pdf" |}.

Definition example_response : Response :=
  {| response_text := "hello"; candidates := None |}.

(** An environment in which every read and every remote call succeeds. *)
Definition example_env : Environment :=
  {| readAsDataURL := λ _, inr "data:image/png;base64,QUJD";
     readAsText := λ _, inr "alpha";
     generateContent := λ _, inr example_response |}.


(** A state in which a request is in flight: "hi" was typed and sent. *)
Definition example_busy : App :=
  run [change_input "hi"; click_send] (mount example_settings).

(** A composer holding "hi", a text file and a PDF. *)
Definition example_with_pdf : App :=
  run [change_input "hi"; change_files (Some [notes_txt; paper_pdf])]
      (mount example_settings).

(** A composer holding "hi" and a text file, in the mode [mode]. *)
Definition example_with_text (mode : ChatMode) : App :=
  run [change_input "hi"; change_files (Some [notes_txt]); click_mode mode]
      (mount example_settings).

(** The blocks the loop builds for the text files of [files], in the order
    of the files, with the contents the environment reads. *)
Definition text_blocks (env : Environment) (files : list File.t) : list string :=
  flat_map
    (λ file,
       if supported_image file then []
       else if text_file file then
         match readAsText env file with
         | inr textContent => [file_block (File.name file) textContent]
         | inl _ => []
         end
       else [])
    files.

(** The delimited block as the specification words it, with any text
    [sep1], [sep2] between its three pieces. *)
Definition spec_block (name sep1 textContent sep2 : string) : string :=
  "--- START OF FILE: " +:+ name +:+ " ---" +:+ sep1 +:+ textContent +:+ sep2 +:+
  "--- END OF FILE ---".






(** The ["Files: ..."] line of an exported block, empty when the entry has
    no file. *)
Definition files_line (entry : TranscriptEntry) : string :=
  match files entry with
  | Some (f :: fs) => "Files: " +:+ JS.join (map name (f :: fs)) ", " +:+ JS.LF
  | _ => ""
  end.

(** A working storage with nothing stored, and a hook state on it. *)
Definition empty_storage : Storage.t :=
  {| Storage.items := ∅; Storage.disabled := false; Storage.full := false |}.

Definition example_hook : Hook :=
  {| hook_settings := example_settings; localStorage := empty_storage;
     root_dark := true |}.

(** ** [ParsedContent]: fenced code blocks in an entry's text *)

(** [[\w-]]: an ASCII letter, a digit, the underscore or the hyphen. *)
Definition word_or_hyphen (c : ascii) : bool :=
  let n := nat_of_ascii c in
  ((48 <=? n) && (n <=? 57)) || ((65 <=? n) && (n <=? 90)) ||
  ((97 <=? n) && (n <=? 122)) || (n =? 95) || (n =? 45).

(** Greedy [[\w-]*] at the start of [s]: the longest run and what follows. *)
Fixpoint word_run (s : string) : string * string :=
  match s with
  | EmptyString => ("", "")
  | String c r =>
      if word_or_hyphen c
      then let '(run, rest) := word_run r in (String c run, rest)
      else ("", s)
  end.

(** A line feed and three backticks, which close a fence. *)
Definition FENCE_CLOSE : string := JS.LF +:+ "```".

(** [s] without its first [n] characters. *)
Fixpoint string_drop (n : nat) (s : string) : string :=
  match n, s with
  | S k, String _ r => string_drop k r
  | _, _ => s
  end.

(** Lazy [[\s\S]*?] followed by the closing of a fence: the shortest text
    before a line feed and three backticks, and what follows them. *)
Fixpoint lazy_until_close (s : string) : option (string * string) :=
  match s with
  | EmptyString => None
  | String c r =>
      if String.prefix FENCE_CLOSE s then Some ("", string_drop 4 s)
      else match lazy_until_close r with
           | Some (body, rest) => Some (String c body, rest)
           | None => None
           end
  end.

(** A match of the pattern of [ParsedContent] at one position: the two
    groups and what follows the match. *)
Record FenceMatch := {
  fence_language : string;
  fence_code : string;
  fence_rest : string
}.

(** The text the pattern consumed: [m[0]]. *)
Definition fence_text (language code : string) : string :=
  "```" +:+ language +:+ JS.LF +:+ code +:+ FENCE_CLOSE.

(** The pattern of [ParsedContent] matched at the start of [s]: three
    backticks, the longest run of word characters and hyphens (group 1), a
    line feed, the shortest text (group 2) before a line feed and three
    backticks. *)
Definition fence_at (s : string) : option FenceMatch :=
  if String.prefix "```" s then
    let '(language, after) := word_run (string_drop 3 s) in
    match after with
    | String c body =>
        if Ascii.eqb c (ascii_of_nat 10) then
          match lazy_until_close body with
          | Some (code, rest) =>
              Some {| fence_language := language; fence_code := code;
                      fence_rest := rest |}
          | None => None
          end
        else None
    | EmptyString => None
    end
  else None.

(** [content.split(...)] on the pattern, the whole of which is one capturing
    group: the splitter tries the pattern at each position in turn; where it matches, the text since the
    last match and then the match itself are pushed, and the scan goes on
    after the match.  [pending] is the text since the last match.  A step
    consumes at least one character, so [fuel] is the length of [s]. *)
Fixpoint split_scan (fuel : nat) (s pending : string) : list string :=
  match fuel, s with
  | S fuel', String c r =>
      match fence_at s with
      | Some m =>
          pending :: fence_text (fence_language m) (fence_code m) ::
          split_scan fuel' (fence_rest m) ""
      | None => split_scan fuel' r (pending +:+ String c "")
      end
  | _, _ => [pending]
  end.

Definition split_fences (content : string) : list string :=
  split_scan (String.length content) content "".

(** [part.match(...)] with the same pattern and no flag: the match at the
    first position of [part] where the pattern matches. *)
Fixpoint fence_search (part : string) : option FenceMatch :=
  match part with
  | EmptyString => None
  | String _ r =>
      match fence_at part with
      | Some m => Some m
      | None => fence_search r
      end
  end.

(** What [ParsedContent] renders for one part. *)
Inductive Piece :=
| code_block (language code : string)
| span (part : string).

Definition render_part (part : string) : Piece :=
  match fence_search part with
  | Some m =>
      let language :=
        if JS.truthy (fence_language m) then fence_language m else "text" in
      code_block language (fence_code m)
  | None => span part
  end.

Definition ParsedContent (content : string) : list Piece :=
  map render_part (split_fences content).

(** ** [getFileExtension] and [handleDownloadFile] *)

(** [c.toLowerCase()] on an ASCII character; the other bytes are kept. *)
Definition ascii_toLowerCase (c : ascii) : ascii :=
  let n := nat_of_ascii c in
  if (65 <=? n) && (n <=? 90) then ascii_of_nat (n + 32) else c.

(** [language.toLowerCase()], for a language tag: a string of ASCII
    characters, as the pattern of [ParsedContent] captures. *)
Fixpoint toLowerCase (s : string) : string :=
  match s with
  | EmptyString => EmptyString
  | String c r => String (ascii_toLowerCase c) (toLowerCase r)
  end.

(** The own properties of the object literal [map]. *)
Definition extension_map : list (string * string) :=
  [("python", "py"); ("javascript", "js"); ("typescript", "ts");
   ("html", "html"); ("css", "css"); ("json", "json");
   ("markdown", "md"); ("shell", "sh"); ("bash", "sh"); ("java", "java");
   ("csharp", "cs"); ("cpp", "cpp"); ("go", "go"); ("ruby", "rb")].

(** What [map[lang] || 'txt'] evaluates to.  A key that is not an own
    property is looked up on [Object.prototype]; of its property names only
    [constructor] and [__proto__] are in lower case, and both hold a truthy
    value that is not a string. *)
Inductive Extension :=
| extension (ext : string)
| Object_constructor
| Object_prototype.

Definition getFileExtension (language : string) : Extension :=
  let lang := toLowerCase language in
  match snd <$> find (λ p, String.eqb (fst p) lang) extension_map with
  | Some ext => extension ext
  | None =>
      if String.eqb lang "constructor" then Object_constructor
      else if String.eqb lang "__proto__" then Object_prototype
      else extension "txt"
  end.

(** The download name [`code-snippet.${extension}`] of [handleDownloadFile]. *)
Definition snippet_name (language : string) : string :=
  "code-snippet." +:+
  match getFileExtension language with
  | extension ext => ext
  | Object_constructor => "function Object() { [native code] }"
  | Object_prototype => "[object Object]"
  end.
(** The pattern matches at no position of [pending] read as the start of
    [pending +:+ s]. *)
Definition no_fence_before (pending s : string) : Prop :=
  ∀ k, k < String.length pending →
       fence_at (string_drop k (pending +:+ s)) = None.

(** Parts as the splitter leaves them: texts in which the pattern matches
    nowhere, with one whole match between two of them. *)
Inductive alternating : list string → Prop :=
| alternating_last (t : string) :
    fence_search t = None → alternating [t]
| alternating_more (t language code : string) (parts : list string) :
    fence_search t = None →
    fence_search (fence_text language code) =
      Some {| fence_language := language; fence_code := code; fence_rest := "" |} →
    word_run language = (language, "") →
    alternating parts →
    alternating (t :: fence_text language code :: parts).
(** A message with one fenced block, as an assistant answer may hold. *)
Definition example_answer : string :=
  "Run:" +:+ JS.LF +:+ "```bash" +:+ JS.LF +:+ "ls -l" +:+ JS.LF +:+ "```" +:+
  JS.LF +:+ "Done.".

(** The image parts the loop builds for the supported images of [files], in
    the order of the files, from the data URLs the environment reads. *)
Definition image_parts (env : Environment) (files : list File.t) : list InlineData :=
  flat_map
    (λ file,
       if supported_image file then
         match readAsDataURL env file with
         | inr result => [fileToBase64 file result]
         | inl _ => []
         end
       else [])
    files.
(** The parts of the first candidate of a response, none when a link of the
    optional chain is missing. *)
Definition parts_of (r : Response) : list ResponsePart :=
  default []
    (JS.chain (JS.chain (JS.chain (candidates r) head) content) content_parts).
(** The events of the composer and of the settings panel: they write the
    input text, the attached files, the mode or the settings, and nothing
    else. *)
Definition composer_event (e : Event) : bool :=
  match e with
  | change_input _ | change_files _ | remove_file _ | click_mode _
  | update_settings _ => true
  | _ => false
  end.

(** A state with the four composer fields rewritten. *)
Definition recompose (on_input : string → string)
    (on_files : list File.t → list File.t) (on_mode : ChatMode → ChatMode)
    (on_settings : Settings → Settings) (a : App) : App :=
  {| transcript := transcript a;
     conversationState := conversationState a; chatMode := on_mode (chatMode a);
     inputText := on_input (inputText a);
     uploadedFiles := on_files (uploadedFiles a);
     isKeySelected := isKeySelected a; settings := on_settings (settings a);
     inflight := inflight a; calls := calls a |}.

(** A sequence of [updateSettings] calls, each followed by its render. *)
Definition updates (JSON_stringify : Settings → string)
    (changes : list PartialSettings) (h : Hook) : Hook :=
  fold_left (λ h newSettings, update JSON_stringify newSettings h) changes h.

(** [{ ...first, ...second }] on two partial objects. *)
Definition overlay (first second : PartialSettings) : PartialSettings :=
  {| p_systemPrompt := from_option Some (p_systemPrompt first) (p_systemPrompt second);
     p_voice := from_option Some (p_voice first) (p_voice second);
     p_textModel := from_option Some (p_textModel first) (p_textModel second);
     p_theme := from_option Some (p_theme first) (p_theme second);
     p_sendOnEnter := from_option Some (p_sendOnEnter first) (p_sendOnEnter second) |}.

(** [{}] *)
Definition no_change : PartialSettings :=
  {| p_systemPrompt := None; p_voice := None; p_textModel := None;
     p_theme := None; p_sendOnEnter := None |}.

(** A storage holding text that is no JSON under the settings key. *)
Definition corrupt_storage : Storage.t :=
  {| Storage.items := {[ SETTINGS_KEY := "{oops" ]};
     Storage.disabled := false; Storage.full := false |}.

(** The storage works and holds the current settings. *)
Definition in_sync (JSON_stringify : Settings → string) (h : Hook) : Prop :=
  Storage.disabled (localStorage h) = false ∧
  Storage.full (localStorage h) = false ∧
  Storage.getItem (localStorage h) SETTINGS_KEY =
    inr (Some (JSON_stringify (hook_settings h))).

(** ** The model on concrete inputs *)

Example trim_strips_both_ends : JS.trim "  a b  " = "a b".
Proof. reflexivity. Qed.

Example trim_of_blank_is_empty :
  JS.trim (" " +:+ JS.LF +:+ String (ascii_of_nat 9) "") = "".
Proof. reflexivity. Qed.

Example split_data_url :
  JS.split "data:image/png;base64,QUJD" "," !! 1 = Some "QUJD".
Proof. reflexivity. Qed.

Example includes_key_message :
  key_rejected "API key not valid. Please pass a valid API key." = true ∧
  key_rejected "quota exceeded" = false.
Proof. split; reflexivity. Qed.

Example send_in_flight :
  conversationState example_busy = PROCESSING ∧
  transcript example_busy = [userMessage "hi" []; geminiTypingMessage] ∧
  length (inflight example_busy) = 1 ∧
  length (calls example_busy) = 1.
Proof. repeat split; reflexivity. Qed.

Example send_answered :
  transcript (send example_env (example_with_text mode_default)) =
    [userMessage "hi" [notes_txt]; gemini_entry (final_text "hello")].
Proof. reflexivity. Qed.

Example send_with_pdf :
  transcript (send example_env example_with_pdf) =
    [userMessage "hi" [notes_txt; paper_pdf];
     gemini_entry
       (final_text
          "Lỗi: Loại tệp không được hỗ trợ cho: paper.pdf. Chỉ hỗ trợ các tệp hình ảnh và văn bản.")].
Proof. reflexivity. Qed.

Example stored_settings_read_back :
  JSON.parse (JSON.stringify defaultSettings) = Some (complete defaultSettings).
Proof. vm_compute. reflexivity. Qed.

(** ** Lemmas on strings *)

Lemma prefix_nil (s : string) : String.prefix "" s = true.
Proof. by destruct s. Qed.

Lemma prefix_spec (p s : string) :
  String.prefix p s = true ↔ ∃ r, s = p +:+ r.
Proof.
  revert s. induction p as [|c p IH]; intros s.
  - rewrite prefix_nil. split; [intros _; by exists s | done].
  - destruct s as [|d s]; cbn [String.prefix].
    + split; [done | intros [r Hr]; discriminate].
    + destruct (Ascii.ascii_dec c d) as [->|Hne].
      * rewrite IH. split; intros [r Hr]; exists r; [by rewrite Hr | by injection Hr].
      * split; [done | intros [r Hr]; injection Hr; congruence].
Qed.

Lemma string_app_cons (x : ascii) (a b : string) :
  String x a +:+ b = String x (a +:+ b).
Proof. reflexivity. Qed.

Lemma string_app_nil_l (a : string) : "" +:+ a = a.
Proof. reflexivity. Qed.

Lemma string_app_assoc (a b c : string) : (a +:+ b) +:+ c = a +:+ b +:+ c.
Proof.
  induction a as [|x a IH]; [done |].
  by rewrite !string_app_cons, IH.
Qed.

Lemma string_app_nil_r (a : string) : a +:+ "" = a.
Proof.
  induction a as [|x a IH]; [done |].
  by rewrite string_app_cons, IH.
Qed.

Lemma includes_spec (s needle : string) :
  JS.includes s needle = true ↔ ∃ a b, s = a +:+ needle +:+ b.
Proof.
  induction s as [|c s IH]; cbn [JS.includes].
  - rewrite orb_false_r, prefix_spec. split.
    + intros [r Hr]. by exists "", r.
    + intros [a [b Hab]]. destruct a; [by exists b | discriminate].
  - rewrite orb_true_iff, prefix_spec, IH. split.
    + intros [[r Hr] | [a [b Hab]]].
      * by exists "", r.
      * exists (String c a), b. by rewrite string_app_cons, Hab.
    + intros [a [b Hab]]. destruct a as [|d a].
      * left. by exists b.
      * right. rewrite string_app_cons in Hab. injection Hab as _ Hab. by exists a, b.
Qed.

Lemma text_file_not_image (file : File.t) :
  text_file file = true → supported_image file = false.
Proof.
  unfold text_file, supported_image, JS.array_includes, SUPPORTED_IMAGE_MIMES.
  intros Ht. apply not_true_is_false. intros Hi.
  apply existsb_exists in Hi as [m [Hm Heq]].
  apply String.eqb_eq in Heq. rewrite Heq in Ht.
  cbn in Hm. by repeat destruct Hm as [<- | Hm].
Qed.

(** ** A send run to its end equals the direct-style reading *)

Lemma drain_idle (env : Environment) (fuel : nat) (a : App) :
  inflight a = [] → drain env fuel a = a.
Proof. intros H. destruct fuel; cbn; [done | by rewrite H]. Qed.

Lemma suspend_inflight (c : Closure) (l : Locals) (rest : list File.t)
    (aw : Await) (a : App) :
  inflight a = [] →
  inflight (suspend c l rest aw a) =
    [{| closure := c; locals := l; remaining := rest; awaiting := aw |}].
Proof. intros H. cbn. by rewrite H. Qed.

Lemma suspend_taken (c : Closure) (l : Locals) (rest : list File.t)
    (aw : Await) (a : App) :
  inflight a = [] → set_inflight (delete 0) (suspend c l rest aw a) = a.
Proof. intros H. destruct a; cbn in *. by subst. Qed.

Lemma settle_suspended (c : Closure) (l : Locals) (rest : list File.t)
    (aw : Await) (v : Settled) (a : App) :
  inflight a = [] →
  apply_event (settle 0 v) (suspend c l rest aw a) =
    default (suspend c l rest aw a)
      (resume {| closure := c; locals := l; remaining := rest; awaiting := aw |} v a).
Proof.
  intros H. cbn [apply_event]. rewrite suspend_inflight by done.
  cbn [lookup list_lookup]. by rewrite suspend_taken.
Qed.

Lemma drain_suspended (env : Environment) (fuel : nat) (c : Closure) (l : Locals)
    (rest : list File.t) (aw : Await) (a a' : App) :
  inflight a = [] →
  resume {| closure := c; locals := l; remaining := rest; awaiting := aw |}
    (answer env aw) a = Some a' →
  drain env (S fuel) (suspend c l rest aw a) = drain env fuel a'.
Proof.
  intros H Hr. cbn [drain]. rewrite suspend_inflight by done.
  cbn [awaiting]. by rewrite settle_suspended, Hr.
Qed.

Lemma drain_call (env : Environment) (fuel : nat) (c : Closure) (l : Locals)
    (req : Request) (a : App) :
  inflight a = [] →
  drain env (S fuel) (call_generateContent c l req a) =
    match generateContent env req with
    | inr r =>
        finally_block
          (replace_last (gemini_entry (finalEntry_of (cl_chatMode c) r))
             (record_call req a))
    | inl e => finally_block (catch_block e (record_call req a))
    end.
Proof.
  intros H. unfold call_generateContent.
  destruct (generateContent env req) as [e | r] eqn:E.
  - erewrite drain_suspended; [apply drain_idle | done | cbn; by rewrite E].
    unfold catch_block. by destruct (key_rejected _).
  - erewrite drain_suspended; [apply drain_idle | done | cbn; by rewrite E]. done.
Qed.

Lemma replace_last_inflight (e : TranscriptEntry) (a : App) :
  inflight (replace_last e a) = inflight a.
Proof. done. Qed.

Lemma drain_after_loop (env : Environment) (fuel : nat) (c : Closure) (l : Locals)
    (a : App) :
  inflight a = [] →
  drain env (S fuel) (after_loop c l a) = conclude env c l a.
Proof.
  intros H. unfold after_loop, conclude, request_of, before_call.
  destruct (0 <? length (unsupportedFiles l)); [by apply drain_idle |].
  destruct (cl_chatMode c) eqn:Em; rewrite drain_call by done; by rewrite Em.
Qed.

Lemma catch_block_inflight (e : Thrown) (a : App) :
  inflight (catch_block e a) = inflight a.
Proof. unfold catch_block. by destruct (key_rejected _). Qed.

Lemma drain_for_files (env : Environment) (c : Closure) (files : list File.t) :
  ∀ (l : Locals) (a : App) (fuel : nat),
    inflight a = [] → length files < fuel →
    drain env fuel (for_files c l files a) = complete_send env c l files a.
Proof.
  induction files as [|file rest IH]; intros l a fuel H Hfuel;
    destruct fuel as [|fuel]; try (cbn in Hfuel; lia).
  - by apply drain_after_loop.
  - cbn in Hfuel. unfold complete_send.
    cbn [for_files classify]. fold (supported_image file). fold (text_file file).
    destruct (supported_image file).
    { destruct (readAsDataURL env file) as [e | result] eqn:E.
      - erewrite drain_suspended; [apply drain_idle | done | cbn; by rewrite E].
        cbn. by rewrite catch_block_inflight.
      - erewrite drain_suspended; [| done | cbn; by rewrite E].
        apply IH; [done | lia]. }
    destruct (text_file file).
    { destruct (readAsText env file) as [e | result] eqn:E.
      - erewrite drain_suspended; [apply drain_idle | done | cbn; by rewrite E].
        cbn. by rewrite catch_block_inflight.
      - erewrite drain_suspended; [| done | cbn; by rewrite E].
        apply IH; [done | lia]. }
    apply IH; [done | lia].
Qed.

Lemma handleSend_accepted (a : App) :
  rejected_send a = false →
  handleSend a = for_files (closure_of a) (locals_of a) (uploadedFiles a) (entered a).
Proof.
  intros H. unfold handleSend. fold (rejected_send a). rewrite H.
  f_equal. unfold entered, setTranscript. cbn. f_equal. by rewrite <- app_assoc.
Qed.

Lemma handleSend_rejected (a : App) :
  rejected_send a = true → handleSend a = a.
Proof. intros H. unfold handleSend. fold (rejected_send a). by rewrite H. Qed.

Lemma send_accepted (env : Environment) (a : App) :
  rejected_send a = false → inflight a = [] →
  send env a =
    complete_send env (closure_of a) (locals_of a) (uploadedFiles a) (entered a).
Proof.
  intros H Hi. unfold send. rewrite handleSend_accepted by done.
  apply drain_for_files; [done | lia].
Qed.

Lemma send_rejected (env : Environment) (a : App) :
  rejected_send a = true → inflight a = [] → send env a = a.
Proof.
  intros H Hi. unfold send. rewrite handleSend_rejected by done.
  by apply drain_idle.
Qed.

(** ** Every transition keeps the invariant *)




Lemma removelast_snoc {A} (l : list A) (x : A) : removelast (l ++ [x]) = l.
Proof. apply removelast_last. Qed.

Lemma last_snoc' {A} (l : list A) (x : A) : last (l ++ [x]) = Some x.
Proof. apply last_snoc. Qed.

Lemma consistent_settled (e : TranscriptEntry) (a : App) :
  running a → is_placeholder e = false →
  consistent (finally_block (replace_last e a)).
Proof.
  intros (Hq & _ & Hi) He. split; cbn.
  - unfold JS.slice_0_m1. by rewrite removelast_snoc.
  - intros e'. rewrite last_snoc. by intros [= <-]; rewrite He.
  - by rewrite Hi.
  - rewrite Hi. cbn. lia.
  - by left.
Qed.

Lemma consistent_ext (a b : App) :
  transcript a = transcript b → conversationState a = conversationState b →
  inflight a = inflight b → consistent a → consistent b.
Proof. intros Ht Hs Hi [? ? ? ? ?]. split; by rewrite <- ?Ht, <- ?Hs, <- ?Hi. Qed.

Lemma consistent_caught (error : Thrown) (a : App) :
  running a → consistent (finally_block (catch_block error a)).
Proof.
  intros Hr. unfold catch_block. destruct (key_rejected _).
  - by eapply consistent_ext;
      [.. | apply (consistent_settled (gemini_entry (final_text KEY_ERROR)) a Hr)].
  - by apply (consistent_settled _ a).
Qed.

Lemma consistent_suspended (c : Closure) (l : Locals) (rest : list File.t)
    (aw : Await) (a : App) :
  running a → consistent (suspend c l rest aw a).
Proof.
  intros (Hq & Hs & Hi). split; cbn; try done.
  - rewrite Hi. by split.
  - rewrite Hi. cbn. lia.
  - by right.
Qed.

Lemma running_replace_last (e : TranscriptEntry) (a : App) :
  running a → is_placeholder e = false → running (replace_last e a).
Proof.
  intros (Hq & Hs & Hi) He. repeat split; try done.
  cbn. unfold JS.slice_0_m1. by rewrite removelast_snoc.
Qed.

Lemma running_record_call (req : Request) (a : App) :
  running a → running (record_call req a).
Proof. done. Qed.

Lemma consistent_after_loop (c : Closure) (l : Locals) (a : App) :
  running a → consistent (after_loop c l a).
Proof.
  intros Hr. unfold after_loop, call_generateContent.
  destruct (0 <? length (unsupportedFiles l)).
  - by eapply consistent_ext;
      [.. | apply (consistent_settled
                     (gemini_entry (final_text (unsupported_message (unsupportedFiles l))))
                     a Hr)].
  - destruct (cl_chatMode c); apply consistent_suspended, running_record_call;
      try done.
    by apply running_replace_last.
Qed.

Lemma consistent_for_files (c : Closure) (files : list File.t) :
  ∀ (l : Locals) (a : App), running a → consistent (for_files c l files a).
Proof.
  induction files as [|file rest IH]; intros l a Hr; cbn [for_files].
  - by apply consistent_after_loop.
  - destruct (JS.array_includes _ _); [by apply consistent_suspended |].
    destruct (JS.startsWith _ _); [by apply consistent_suspended |].
    by apply IH.
Qed.

Lemma consistent_resume (fr : Frame) (v : Settled) (a a' : App) :
  running a → resume fr v a = Some a' → consistent a'.
Proof.
  intros Hr. unfold resume.
  destruct (awaiting fr), v; intros [= <-];
    first [ by apply consistent_for_files
          | by apply consistent_caught
          | by apply consistent_settled ].
Qed.

Lemma quiet_whole (a : App) :
  consistent a → conversationState a ≠ PROCESSING → quiet (transcript a).
Proof.
  intros [Hq Ht _ _ _] Hs.
  destruct (transcript a) as [|e0 t0] using rev_ind; [by constructor |].
  rewrite removelast_snoc in Hq. rewrite last_snoc in Ht.
  apply Forall_app. split; [done |]. constructor; [| by constructor].
  destruct (is_placeholder e0) eqn:Ep; [| done].
  by specialize (Ht e0 eq_refl Ep).
Qed.

Lemma consistent_handleSend (a : App) : consistent a → consistent (handleSend a).
Proof.
  intros Hc. destruct (rejected_send a) eqn:Hg.
  - by rewrite handleSend_rejected.
  - rewrite handleSend_accepted by done. apply consistent_for_files.
    unfold rejected_send in Hg. apply orb_false_iff in Hg as [_ Hp].
    apply bool_decide_eq_false in Hp.
    pose proof (quiet_whole a Hc Hp) as Hq.
    repeat split; cbn.
    + change [userMessage (inputText a) (uploadedFiles a); geminiTypingMessage]
        with ([userMessage (inputText a) (uploadedFiles a)] ++ [geminiTypingMessage]).
      rewrite app_assoc, removelast_snoc.
      apply Forall_app. split; [done |]. by constructor.
    + destruct (inflight a) eqn:Ei; [done |].
      destruct Hp. apply Hc. by rewrite Ei.
Qed.

Lemma consistent_apply_event (e : Event) (a : App) :
  consistent a → consistent (apply_event e a).
Proof.
  intros Hc.
  destruct e as [| key shift | value | selected | file | mode | | p | ok | i v];
    cbn [apply_event].
  - by apply consistent_handleSend.
  - unfold handleKeyDown. destruct (_ && _); [by apply consistent_handleSend | done].
  - by destruct Hc.
  - unfold handleFileChange. by destruct selected; [destruct Hc |].
  - by destruct Hc.
  - by destruct Hc.
  - destruct Hc. split; cbn; try done. by constructor.
  - by destruct Hc.
  - unfold key_answer. by destruct ok; [destruct Hc |].
  - destruct (inflight a !! i) as [fr|] eqn:Ei; [| done].
    destruct (resume fr v _) as [a'|] eqn:Er; [| done]. cbn.
    eapply consistent_resume; [| exact Er].
    destruct Hc as [Hq Ht Hb Ho Hst].
    destruct (inflight a) as [|fr0 [|fr1 frs]] eqn:E; cbn in Ho; try done; try lia.
    destruct i; [| done]. repeat split; cbn; rewrite ?E; try done.
    by apply Hb.
Qed.

Lemma consistent_mount (stored : Settings) : consistent (mount stored).
Proof.
  split; cbn;
    [by constructor | done | split; [done | by intros []] | lia | by left].
Qed.

Lemma consistent_run (events : list Event) (a : App) :
  consistent a → consistent (run events a).
Proof.
  revert a. induction events as [|e events IH]; intros a Hc; [done |].
  cbn. apply IH. by apply consistent_apply_event.
Qed.

Lemma conclude_inflight (env : Environment) (c : Closure) (l : Locals) (a : App) :
  inflight (conclude env c l a) = inflight a.
Proof.
  unfold conclude, before_call.
  destruct (0 <? length (unsupportedFiles l)); [done |].
  destruct (generateContent env _); [| by destruct (cl_chatMode c)].
  cbn. rewrite catch_block_inflight. by destruct (cl_chatMode c).
Qed.

Lemma complete_send_inflight (env : Environment) (c : Closure) (l : Locals)
    (files : list File.t) (a : App) :
  inflight a = [] → inflight (complete_send env c l files a) = [].
Proof.
  intros Hi. unfold complete_send. destruct (classify env l files).
  - cbn. by rewrite catch_block_inflight.
  - by rewrite conclude_inflight.
Qed.

Lemma consistent_drain (env : Environment) (fuel : nat) (a : App) :
  consistent a → consistent (drain env fuel a).
Proof.
  revert a. induction fuel as [|fuel IH]; intros a Hc; [done |].
  cbn [drain]. destruct (inflight a); [done |].
  by apply IH, consistent_apply_event.
Qed.

Lemma consistent_send (env : Environment) (a : App) :
  consistent a → consistent (send env a).
Proof. intros Hc. by apply consistent_drain, consistent_handleSend. Qed.

Lemma quiet_placeholders (t : list TranscriptEntry) :
  quiet t → placeholders t = 0.
Proof.
  unfold placeholders. induction 1 as [|e t He _ IH]; [done |].
  cbn. by rewrite He.
Qed.

Lemma consistent_idle (a : App) :
  consistent a → inflight a = [] →
  conversationState a = IDLE ∧ placeholders (transcript a) = 0.
Proof.
  intros Hc Hi.
  assert (conversationState a ≠ PROCESSING) as Hs.
  { intros Hp. by apply (consistent_busy a Hc) in Hp. }
  split.
  - by destruct (consistent_states a Hc).
  - by apply quiet_placeholders, quiet_whole.
Qed.

Lemma consistent_placeholders (a : App) :
  consistent a → placeholders (transcript a) ≤ 1.
Proof.
  intros [Hq _ _ _ _]. unfold placeholders.
  destruct (transcript a) as [|e0 t0] using rev_ind; [cbn; lia |].
  rewrite removelast_snoc in Hq.
  rewrite List.filter_app, length_app.
  fold (placeholders t0). rewrite quiet_placeholders by done.
  cbn. destruct (is_placeholder e0); cbn; lia.
Qed.

Lemma consistent_position (a : App) (i : nat) (e : TranscriptEntry) :
  consistent a → transcript a !! i = Some e → is_placeholder e = true →
  S i = length (transcript a) ∧ conversationState a = PROCESSING ∧
  inflight a ≠ [].
Proof.
  intros Hc Hl He.
  destruct Hc as [Hq Ht Hb _ _].
  destruct (transcript a) as [|e0 t0] using rev_ind; [done |].
  rewrite removelast_snoc in Hq. rewrite last_snoc in Ht.
  destruct (decide (i < length t0)) as [Hlt | Hge].
  - rewrite lookup_app_l in Hl by done.
    apply list_elem_of_lookup_2 in Hl.
    rewrite (proj1 (Forall_forall _ _) Hq e Hl) in He. done.
  - rewrite lookup_app_r in Hl by lia.
    destruct (i - length t0) as [|k] eqn:Ek; [| by destruct k].
    injection Hl as <-. rewrite length_app. cbn.
    pose proof (Ht e0 eq_refl He) as Hp.
    split; [lia |]. split; [done | by apply Hb].
Qed.

(** C1. In every state a session can reach, the transcript holds at most
    one placeholder entry; a placeholder is the last entry and the state is
    then [PROCESSING] with a call suspended; when no call is suspended there
    is none.  A send always ends, and when a send has ended, by an answer,
    an unsupported file or a rejection, no placeholder is left. *)
Theorem placeholder_only_last_and_only_while_processing
    (stored : Settings) (events : list Event) :
  let a := run events (mount stored) in
  placeholders (transcript a) ≤ 1 ∧
  (∀ i e, transcript a !! i = Some e → is_placeholder e = true →
     S i = length (transcript a) ∧ conversationState a = PROCESSING ∧
     inflight a ≠ []) ∧
  (inflight a = [] → placeholders (transcript a) = 0) ∧
  (∀ i v, let a' := apply_event (settle i v) a in
     inflight a' = [] → placeholders (transcript a') = 0) ∧
  (∀ env, inflight a = [] →
     let a' := send env a in
     inflight a' = [] ∧ placeholders (transcript a') = 0).
Proof.
  intros a.
  assert (consistent a) as Hc by apply consistent_run, consistent_mount.
  split; [by apply consistent_placeholders |].
  split; [intros i e; by apply consistent_position |].
  split; [intros Hi; by apply consistent_idle |].
  split.
  - intros i v a' Hi. by apply consistent_idle; [apply consistent_apply_event |].
  - intros env Hi a'.
    assert (inflight a' = []) as Hi'.
    { unfold a'. destruct (rejected_send a) eqn:Hg.
      - by rewrite send_rejected.
      - rewrite send_accepted by done. apply complete_send_inflight. done. }
    split; [done |]. by apply consistent_idle; [apply consistent_send |].
Qed.

(** ** The guard of [handleSend] *)

Lemma processing_rejected (a : App) :
  conversationState a = PROCESSING → rejected_send a = true.
Proof.
  intros Hp. unfold rejected_send. rewrite orb_true_iff. right.
  by apply bool_decide_eq_true.
Qed.

Lemma complete_send_state (env : Environment) (c : Closure) (l : Locals)
    (files : list File.t) (a : App) :
  conversationState (complete_send env c l files a) = IDLE.
Proof.
  unfold complete_send, conclude. destruct (classify env l files); [done |].
  destruct (0 <? length (unsupportedFiles _)); [done |].
  by destruct (generateContent env _).
Qed.

(** C2. In a state whose conversation state is [PROCESSING], [handleSend]
    returns the state it was given: transcript, input text, attached files,
    conversation state and the record of remote calls are the same, and no
    call is suspended that was not.  In every reachable state at most one
    call is suspended, and one is exactly when the state is [PROCESSING].
    Every accepted send ends, whatever the environment answers, in [IDLE]
    with no call suspended; and in any interleaving the transition that
    ends the suspended call leaves the state [IDLE]. *)
Theorem send_while_processing_is_dropped :
  (∀ a, conversationState a = PROCESSING →
     handleSend a = a ∧ ∀ shiftKey, handleKeyDown "Enter" shiftKey a = a) ∧
  (∀ stored events,
     let a := run events (mount stored) in
     length (inflight a) ≤ 1 ∧
     (conversationState a = PROCESSING ↔ inflight a ≠ [])) ∧
  (∀ env a, rejected_send a = false → inflight a = [] →
     conversationState (send env a) = IDLE ∧ inflight (send env a) = []) ∧
  (∀ stored events i v,
     let a := run events (mount stored) in
     let a' := apply_event (settle i v) a in
     inflight a' = [] → conversationState a' = IDLE).
Proof.
  split; [| split; [| split]].
  - intros a Hp.
    assert (handleSend a = a) as Hs
      by by apply handleSend_rejected, processing_rejected.
    split; [done |]. intros shiftKey. unfold handleKeyDown.
    by destruct (_ && _).
  - intros stored events a.
    assert (consistent a) as Hc by apply consistent_run, consistent_mount.
    split; [apply Hc | apply Hc].
  - intros env a Hg Hi. rewrite send_accepted by done.
    split; [apply complete_send_state | by apply complete_send_inflight].
  - intros stored events i v a a' Hi.
    assert (consistent a') as Hc
      by apply consistent_apply_event, consistent_run, consistent_mount.
    by apply consistent_idle.
Qed.

Lemma send_while_processing_is_dropped_witness :
  conversationState example_busy = PROCESSING ∧
  handleSend example_busy = example_busy ∧
  conversationState (send example_env (mount example_settings)) = IDLE.
Proof.
  split; [reflexivity |]. split.
  - apply (proj1 send_while_processing_is_dropped example_busy). reflexivity.
  - reflexivity.
Defined.

(** C4. With an input text that is empty (or white space only) and no file
    attached, [handleSend] returns the state it was given: the transcript
    is unchanged and no remote call is issued or left pending.  The same
    holds for the Enter key, which goes through [handleSend]. *)
Theorem send_of_nothing_is_noop (a : App) :
  JS.trim (inputText a) = "" → uploadedFiles a = [] →
  handleSend a = a ∧
  transcript (handleSend a) = transcript a ∧
  calls (handleSend a) = calls a ∧
  inflight (handleSend a) = inflight a ∧
  ∀ shiftKey, handleKeyDown "Enter" shiftKey a = a.
Proof.
  intros Ht Hf.
  assert (handleSend a = a) as Hs.
  { apply handleSend_rejected. unfold rejected_send. by rewrite Ht, Hf. }
  rewrite Hs. repeat split; try done.
  intros shiftKey. unfold handleKeyDown. by destruct (_ && _).
Qed.

Lemma send_of_nothing_is_noop_witness :
  handleSend (mount example_settings) = mount example_settings.
Proof.
  apply (send_of_nothing_is_noop (mount example_settings)); reflexivity.
Defined.

(** ** What a send leaves in the transcript *)

Lemma transcript_replace_last (e x : TranscriptEntry) (t : list TranscriptEntry)
    (a : App) :
  transcript a = t ++ [x] → transcript (replace_last e a) = t ++ [e].
Proof. intros H. cbn. unfold JS.slice_0_m1. by rewrite H, removelast_snoc. Qed.

Lemma transcript_entered (a : App) :
  transcript (entered a) =
    (transcript a ++ [userMessage (inputText a) (uploadedFiles a)]) ++
    [geminiTypingMessage].
Proof. cbn. by rewrite <- app_assoc. Qed.

Lemma transcript_before_call (c : Closure) (x : TranscriptEntry)
    (t : list TranscriptEntry) (a : App) :
  transcript a = t ++ [x] → ∃ y, transcript (before_call c a) = t ++ [y].
Proof.
  intros H. unfold before_call.
  destruct (cl_chatMode c); eauto using transcript_replace_last.
Qed.

Lemma transcript_caught (error : Thrown) (x : TranscriptEntry)
    (t : list TranscriptEntry) (a : App) :
  transcript a = t ++ [x] →
  transcript (finally_block (catch_block error a)) =
    t ++ [gemini_entry (final_text (catch_text error))].
Proof.
  intros H. unfold catch_block, catch_text. destruct (key_rejected _); cbn;
    unfold JS.slice_0_m1; by rewrite H, removelast_snoc.
Qed.

Lemma prefix_app_l (p q r : string) :
  String.prefix p q = true → String.prefix p (q +:+ r) = true.
Proof.
  rewrite !prefix_spec. intros [s ->]. exists (s +:+ r).
  by rewrite string_app_assoc.
Qed.

Lemma catch_text_prefix (error : Thrown) :
  JS.startsWith (catch_text error) "Lỗi: " = true.
Proof.
  unfold catch_text, JS.startsWith. destruct (key_rejected _); [done |].
  by apply prefix_app_l.
Qed.

Lemma placeholders_snoc (t : list TranscriptEntry) (e : TranscriptEntry) :
  is_placeholder e = false → placeholders (t ++ [e]) = placeholders t.
Proof.
  intros He. unfold placeholders. rewrite List.filter_app, length_app.
  cbn. rewrite He. cbn. lia.
Qed.

Lemma classify_unsupported (env : Environment) (files : list File.t) :
  ∀ l l', classify env l files = inr l' →
    unsupportedFiles l' =
      unsupportedFiles l ++ map File.name (List.filter unsupported files).
Proof.
  induction files as [|file rest IH]; intros l l'; cbn [classify List.filter].
  - intros [= <-]. by rewrite app_nil_r.
  - unfold unsupported at 1.
    destruct (supported_image file); cbn [negb andb].
    { destruct (readAsDataURL env file); [done |]. intros H. by rewrite (IH _ _ H). }
    destruct (text_file file); cbn [negb andb].
    { destruct (readAsText env file); [done |]. intros H. by rewrite (IH _ _ H). }
    intros H. rewrite (IH _ _ H). cbn. by rewrite <- app_assoc.
Qed.

Lemma classify_reads_succeed (env : Environment) (files : list File.t) :
  reads_succeed env files → ∀ l, ∃ l', classify env l files = inr l'.
Proof.
  induction files as [|file rest IH]; intros Hr l; cbn [classify]; [by eexists |].
  assert (reads_succeed env rest) as Hrest.
  { intros f Hf. apply Hr. by right. }
  destruct (Hr file) as [Himg Htxt]; [by left |].
  destruct (supported_image file).
  { destruct Himg as [result ->]; [done |]. by apply IH. }
  destruct (text_file file).
  { destruct Htxt as [result ->]; [done |]. by apply IH. }
  by apply IH.
Qed.

Lemma accepted_with_files (a : App) :
  conversationState a ≠ PROCESSING → uploadedFiles a ≠ [] →
  rejected_send a = false.
Proof.
  intros Hs Hf. unfold rejected_send.
  rewrite (bool_decide_eq_false_2 _ Hs), orb_false_r.
  destruct (uploadedFiles a); [done |]. by rewrite andb_false_r.
Qed.

(** C3. A send with an attached file that is neither an allow-listed image
    nor of a [text/] type issues no remote call, ends in [IDLE] with no call
    suspended, and leaves the transcript with the user entry and exactly one
    further entry in place of the placeholder: an error entry of the
    assistant.  When the reads of the other files succeed that entry is the
    unsupported-type message naming the unsupported files in order. *)
Theorem unsupported_file_aborts_send (env : Environment) (a : App) :
  conversationState a ≠ PROCESSING → inflight a = [] →
  (∃ file, file ∈ uploadedFiles a ∧ unsupported file = true) →
  let a' := send env a in
  calls a' = calls a ∧
  conversationState a' = IDLE ∧ inflight a' = [] ∧
  placeholders (transcript a') = placeholders (transcript a) ∧
  ∃ errorMessage,
    transcript a' =
      transcript a ++
      [userMessage (inputText a) (uploadedFiles a);
       gemini_entry (final_text errorMessage)] ∧
    JS.startsWith errorMessage "Lỗi: " = true ∧
    (reads_succeed env (uploadedFiles a) →
     errorMessage =
       unsupported_message
         (map File.name (List.filter unsupported (uploadedFiles a)))).
Proof.
  intros Hs Hi (file & Hin & Hun) a'.
  assert (rejected_send a = false) as Hg.
  { apply accepted_with_files; [done |]. intros E. rewrite E in Hin. by inversion Hin. }
  assert (List.filter unsupported (uploadedFiles a) ≠ []) as Hne.
  { intros E. apply list_elem_of_In in Hin.
    assert (In file (List.filter unsupported (uploadedFiles a))) as Hf
      by by apply filter_In.
    by rewrite E in Hf. }
  unfold a'. rewrite send_accepted by done. unfold complete_send.
  destruct (classify env _ _) as [e | l'] eqn:Ec.
  - assert (transcript (finally_block (catch_block e (entered a))) =
            (transcript a ++ [userMessage (inputText a) (uploadedFiles a)]) ++
            [gemini_entry (final_text (catch_text e))]) as Ht
      by (eapply transcript_caught, transcript_entered).
    split; [unfold catch_block; by destruct (key_rejected _) |].
    split; [done |].
    split; [cbn; by rewrite catch_block_inflight |].
    split.
    { rewrite Ht. by rewrite !placeholders_snoc. }
    exists (catch_text e). rewrite Ht, <- app_assoc.
    split; [done |]. split; [apply catch_text_prefix |].
    intros Hr. destruct (classify_reads_succeed env _ Hr (locals_of a)) as [l' El].
    by rewrite El in Ec.
  - pose proof (classify_unsupported env _ _ _ Ec) as Hu. cbn in Hu.
    unfold conclude. rewrite Hu.
    destruct (map File.name (List.filter unsupported (uploadedFiles a)))
      as [|n ns] eqn:En.
    { by destruct (List.filter unsupported (uploadedFiles a)). }
    cbn [length Nat.ltb Nat.leb].
    assert (transcript (replace_last
              (gemini_entry (final_text (unsupported_message (n :: ns))))
              (entered a)) =
            (transcript a ++ [userMessage (inputText a) (uploadedFiles a)]) ++
            [gemini_entry (final_text (unsupported_message (n :: ns)))]) as Ht
      by (eapply transcript_replace_last, transcript_entered).
    split; [done |]. split; [done |]. split; [done |].
    cbn [finally_block setConversationState transcript]. rewrite Ht.
    split.
    { by rewrite !placeholders_snoc. }
    exists (unsupported_message (n :: ns)). rewrite <- app_assoc.
    split; [done |]. split; [| done].
    unfold JS.startsWith, unsupported_message. by apply prefix_app_l.
Qed.

Lemma unsupported_file_aborts_send_witness :
  calls (send example_env example_with_pdf) = [] ∧
  conversationState (send example_env example_with_pdf) = IDLE.
Proof.
  destruct (unsupported_file_aborts_send example_env example_with_pdf)
    as (Hcalls & Hstate & _).
  - discriminate.
  - reflexivity.
  - exists paper_pdf. split; [| reflexivity].
    apply list_elem_of_In. right. left. reflexivity.
  - split; [exact Hcalls | exact Hstate].
Defined.

Lemma complete_send_calls (env : Environment) (c : Closure) (l : Locals)
    (files : list File.t) (a : App) :
  calls (complete_send env c l files a) =
    match classify env l files with
    | inr l' =>
        if 0 <? length (unsupportedFiles l') then calls a
        else calls a ++ [request_of c l']
    | inl _ => calls a
    end.
Proof.
  unfold complete_send, conclude. destruct (classify env l files) as [e | l'].
  - unfold catch_block. by destruct (key_rejected _).
  - destruct (0 <? length (unsupportedFiles l')); [done |].
    unfold before_call.
    destruct (generateContent env _).
    + unfold catch_block. destruct (key_rejected _); by destruct (cl_chatMode c).
    + by destruct (cl_chatMode c).
Qed.

(** With every file supported and every read answered, the loop ends with its
    three arrays and reports no unsupported file. *)
Lemma classify_supported (env : Environment) (files : list File.t) (l : Locals) :
  (∀ file, file ∈ files → unsupported file = false) →
  reads_succeed env files → unsupportedFiles l = [] →
  ∃ l', classify env l files = inr l' ∧ unsupportedFiles l' = [].
Proof.
  intros Hsup Hr Hl.
  destruct (classify_reads_succeed env files Hr l) as [l' El].
  exists l'. split; [done |].
  rewrite (classify_unsupported env _ _ _ El), Hl.
  assert (List.filter unsupported files = []) as ->; [| done].
  clear -Hsup. induction files as [|f fs IH]; [done |].
  cbn. rewrite (Hsup f) by by left. apply IH. intros x Hx. apply Hsup. by right.
Qed.




(** ** The request body *)

Lemma join_empty_cons (x : string) (xs : list string) :
  JS.join (x :: xs) "" = x +:+ JS.join xs "".
Proof.
  unfold JS.join. destruct xs as [|y ys]; cbn [String.concat].
  - by rewrite string_app_nil_r.
  - by rewrite string_app_nil_l.
Qed.

Lemma join_empty_app (xs ys : list string) :
  JS.join (xs ++ ys) "" = JS.join xs "" +:+ JS.join ys "".
Proof.
  induction xs as [|x xs IH]; [done |].
  rewrite <- app_comm_cons, !join_empty_cons, IH. by rewrite string_app_assoc.
Qed.

Lemma classify_textParts (env : Environment) (files : list File.t) :
  ∀ l l', classify env l files = inr l' →
    textParts l' = rev (text_blocks env files) ++ textParts l.
Proof.
  induction files as [|file rest IH]; intros l l'; cbn [classify].
  - by intros [= <-].
  - unfold text_blocks. cbn [flat_map]. fold (text_blocks env rest).
    destruct (supported_image file).
    { destruct (readAsDataURL env file); [done |]. intros H. by rewrite (IH _ _ H). }
    destruct (text_file file).
    { destruct (readAsText env file); [done |]. intros H. rewrite (IH _ _ H).
      cbn. by rewrite <- app_assoc. }
    intros H. by rewrite (IH _ _ H).
Qed.

Lemma contents_text_of (l : Locals) :
  contents_text (contents_of l) = Some (combinedText l).
Proof. unfold contents_of. by destruct (0 <? length (imageParts l)). Qed.

Lemma request_text (c : Closure) (l : Locals) :
  cl_chatMode c ≠ mode_image →
  contents_text (contents (request_of c l)) = Some (combinedText l).
Proof.
  unfold request_of. destruct (cl_chatMode c); try done;
    intros _; apply contents_text_of.
Qed.

Lemma text_block_listed (env : Environment) (files : list File.t) (file : File.t)
    (textContent : string) :
  file ∈ files → text_file file = true → readAsText env file = inr textContent →
  ∃ before after,
    rev (text_blocks env files) =
      before ++ file_block (File.name file) textContent :: after.
Proof.
  intros Hin Ht Hr. apply list_elem_of_In, in_split in Hin as (fs1 & fs2 & ->).
  exists (rev (text_blocks env fs2)), (rev (text_blocks env fs1)).
  unfold text_blocks. rewrite flat_map_app. cbn [flat_map].
  rewrite (text_file_not_image file Ht), Ht, Hr.
  rewrite rev_app_distr. cbn [app rev]. by rewrite <- app_assoc.
Qed.

(** C10. In image mode the only request a send can issue is the image
    request whose body is the single text part holding the input text as it
    was when the send was called: model [gemini-2.5-flash-image], output
    modality IMAGE.  Nothing built from the attached files is in it.  The
    files are classified all the same: the request is issued when every file
    is supported and every read succeeds, and no request is issued when a
    file is unsupported. *)
Theorem image_request_holds_input_only (env : Environment) (a : App) :
  chatMode a = mode_image → rejected_send a = false → inflight a = [] →
  let a' := send env a in
  let request :=
    {| model := "gemini-2.5-flash-image";
       contents := contents_parts [text_part (inputText a)];
       config := Some {| tools := None; responseModalities := Some [IMAGE];
                         systemInstruction := None |} |} in
  (calls a' = calls a ∨ calls a' = calls a ++ [request]) ∧
  ((∀ file, file ∈ uploadedFiles a → unsupported file = false) →
   reads_succeed env (uploadedFiles a) →
   calls a' = calls a ++ [request]) ∧
  ((∃ file, file ∈ uploadedFiles a ∧ unsupported file = true) →
   calls a' = calls a ∧ conversationState a' = IDLE).
Proof.
  intros Hm Hg Hi a' request.
  assert (∀ l, request_of (closure_of a) l = request) as Hreq.
  { intros l. unfold request_of. cbn. by rewrite Hm. }
  unfold a'. rewrite send_accepted by done.
  rewrite complete_send_calls, complete_send_state.
  split; [| split].
  - destruct (classify env _ _) as [e | l']; [by left |].
    destruct (0 <? length (unsupportedFiles l')); [by left | right].
    by rewrite Hreq.
  - intros Hsup Hr.
    destruct (classify_supported env (uploadedFiles a) (locals_of a) Hsup Hr eq_refl)
      as (l' & -> & ->).
    by rewrite Hreq.
  - intros (file & Hin & Hun). split; [| done].
    destruct (classify env _ _) as [e | l'] eqn:Ec; [done |].
    rewrite (classify_unsupported env _ _ _ Ec). cbn [locals_of unsupportedFiles app].
    apply list_elem_of_In in Hin.
    assert (In file (List.filter unsupported (uploadedFiles a))) as Hf
      by by apply filter_In.
    by destruct (List.filter unsupported (uploadedFiles a)).
Qed.

Lemma image_request_holds_input_only_witness :
  calls (send example_env (example_with_text mode_image)) =
    [{| model := "gemini-2.5-flash-image";
        contents := contents_parts [text_part "hi"];
        config := Some {| tools := None; responseModalities := Some [IMAGE];
                          systemInstruction := None |} |}].
Proof.
  destruct (image_request_holds_input_only example_env (example_with_text mode_image))
    as (_ & Hcall & _).
  - reflexivity.
  - reflexivity.
  - reflexivity.
  - apply Hcall.
    + intros file Hin. apply list_elem_of_In in Hin.
      destruct Hin as [<- | []]. reflexivity.
    + intros file Hin. split; intros _; eexists; reflexivity.
Defined.

(** C6, as the code has it.  In the modes other than image, when no file is
    unsupported and every read succeeds, the send issues one request; its
    text is the blocks of the text files, last attached first, followed by
    the input text typed.  So the block of each attached text file stands
    before the input text.  A block is [--- START OF FILE: name ---], a line
    feed, the content, a line feed, [--- END OF FILE: name ---] and two line
    feeds: the closing delimiter repeats the file name. *)
Theorem text_file_block_precedes_input (env : Environment) (a : App)
    (file : File.t) (textContent : string) :
  chatMode a ≠ mode_image → conversationState a ≠ PROCESSING → inflight a = [] →
  (∀ f, f ∈ uploadedFiles a → unsupported f = false) →
  reads_succeed env (uploadedFiles a) →
  file ∈ uploadedFiles a → text_file file = true →
  readAsText env file = inr textContent →
  let a' := send env a in
  ∃ req before after,
    calls a' = calls a ++ [req] ∧
    contents_text (contents req) =
      Some (JS.join (rev (text_blocks env (uploadedFiles a))) "" +:+ inputText a) ∧
    contents_text (contents req) =
      Some (before +:+ file_block (File.name file) textContent +:+ after +:+
            inputText a) ∧
    file_block (File.name file) textContent =
      "--- START OF FILE: " +:+ File.name file +:+ " ---" +:+ JS.LF +:+
      textContent +:+ JS.LF +:+
      "--- END OF FILE: " +:+ File.name file +:+ " ---" +:+ JS.LF +:+ JS.LF.
Proof.
  intros Hm Hs Hi Hsup Hr Hin Ht Hread a'.
  assert (rejected_send a = false) as Hg.
  { apply accepted_with_files; [done |]. intros E. rewrite E in Hin. by inversion Hin. }
  destruct (classify_supported env (uploadedFiles a) (locals_of a) Hsup Hr eq_refl)
    as (l' & El & Hu).
  destruct (text_block_listed env _ _ _ Hin Ht Hread) as (bs1 & bs2 & Hb).
  pose proof (classify_textParts env _ _ _ El) as Hparts. cbn in Hparts.
  assert (combinedText l' =
          JS.join (rev (text_blocks env (uploadedFiles a))) "" +:+ inputText a) as Hc.
  { unfold combinedText. rewrite Hparts, join_empty_app. done. }
  exists (request_of (closure_of a) l'), (JS.join bs1 ""), (JS.join bs2 "").
  split; [| split; [| split]].
  - unfold a'. rewrite send_accepted by done.
    by rewrite complete_send_calls, El, Hu.
  - by rewrite request_text, Hc.
  - rewrite request_text, Hc by done. f_equal.
    rewrite Hb, join_empty_app, join_empty_cons.
    by rewrite !string_app_assoc.
  - done.
Qed.

Lemma text_file_block_precedes_input_witness :
  ∃ req,
    calls (send example_env (example_with_text mode_search)) = [req] ∧
    contents_text (contents req) =
      Some ("--- START OF FILE: notes.txt ---" +:+ JS.LF +:+ "alpha" +:+ JS.LF +:+
            "--- END OF FILE: notes.txt ---" +:+ JS.LF +:+ JS.LF +:+ "hi").
Proof.
  destruct (text_file_block_precedes_input example_env
              (example_with_text mode_search) notes_txt "alpha")
    as (req & before & after & Hcalls & Htext & _).
  - discriminate.
  - discriminate.
  - reflexivity.
  - intros f Hin. apply list_elem_of_In in Hin.
    destruct Hin as [<- | []]. reflexivity.
  - intros f Hin. split; intros _; eexists; reflexivity.
  - apply list_elem_of_In. left. reflexivity.
  - reflexivity.
  - reflexivity.
  - exists req. split; [exact Hcalls | exact Htext].
Defined.

(** C6 as worded fails.  With "hi" typed and [notes.txt] attached, the
    request of default mode carries the block with the closing delimiter
    [--- END OF FILE: notes.txt ---]: no text of the worded form, closed by
    [--- END OF FILE ---], is in it.  In image mode the request carries the
    input text alone and no block at all. *)
Lemma text_file_block_counterexample :
  (∃ req,
     calls (send example_env (example_with_text mode_default)) = [req] ∧
     contents_text (contents req) =
       Some ("--- START OF FILE: notes.txt ---" +:+ JS.LF +:+ "alpha" +:+ JS.LF +:+
             "--- END OF FILE: notes.txt ---" +:+ JS.LF +:+ JS.LF +:+ "hi")) ∧
  ¬ (∃ req sep1 sep2 before after,
       req ∈ calls (send example_env (example_with_text mode_default)) ∧
       contents_text (contents req) =
         Some (before +:+ spec_block "notes.txt" sep1 "alpha" sep2 +:+ after +:+ "hi")) ∧
  ¬ (∃ req before after,
       req ∈ calls (send example_env (example_with_text mode_image)) ∧
       contents_text (contents req) =
         Some (before +:+ "--- START OF FILE: notes.txt ---" +:+ after)).
Proof.
  split; [| split].
  - eexists. split; reflexivity.
  - intros (req & sep1 & sep2 & before & after & Hin & Ht).
    apply list_elem_of_In in Hin. vm_compute in Hin. destruct Hin as [<- | []].
    cbn [contents contents_text] in Ht. injection Ht as Ht.
    assert (JS.includes
              ("--- START OF FILE: notes.txt ---" +:+ JS.LF +:+ "alpha" +:+ JS.LF +:+
               "--- END OF FILE: notes.txt ---" +:+ JS.LF +:+ JS.LF +:+ "hi")
              "--- END OF FILE ---" = true) as Hinc.
    { apply includes_spec.
      exists (before +:+ "--- START OF FILE: " +:+ "notes.txt" +:+ " ---" +:+ sep1 +:+
              "alpha" +:+ sep2), (after +:+ "hi").
      etrans; [exact Ht |]. unfold spec_block. by rewrite !string_app_assoc. }
    vm_compute in Hinc. discriminate.
  - intros (req & before & after & Hin & Ht).
    apply list_elem_of_In in Hin. vm_compute in Hin. destruct Hin as [<- | []].
    cbn [contents contents_text] in Ht. injection Ht as Ht.
    assert (JS.includes "hi" "--- START OF FILE: notes.txt ---" = true) as Hinc.
    { apply includes_spec. by exists before, after. }
    vm_compute in Hinc. discriminate.
Qed.

(** ** Grounding sources *)




Lemma transcript_answered (e : TranscriptEntry) (req : Request) (a : App) :
  transcript
    (finally_block
       (replace_last e (record_call req (before_call (closure_of a) (entered a))))) =
  transcript a ++ [userMessage (inputText a) (uploadedFiles a); e].
Proof.
  destruct (transcript_before_call (closure_of a) _ _ _ (transcript_entered a))
    as [y Hy].
  cbn [finally_block setConversationState transcript].
  rewrite (transcript_replace_last e y
             (transcript a ++ [userMessage (inputText a) (uploadedFiles a)])
             (record_call req (before_call (closure_of a) (entered a))) Hy).
  by rewrite <- app_assoc.
Qed.



(** ** Export *)

Lemma join_cons_cons (x y : string) (xs : list string) (sep : string) :
  JS.join (x :: y :: xs) sep = x +:+ sep +:+ JS.join (y :: xs) sep.
Proof. reflexivity. Qed.

Lemma join_app (xs ys : list string) (sep : string) :
  xs ≠ [] → ys ≠ [] →
  JS.join (xs ++ ys) sep = JS.join xs sep +:+ sep +:+ JS.join ys sep.
Proof.
  intros Hx Hy. induction xs as [|x xs IH]; [done |].
  destruct xs as [|x' xs].
  - destruct ys as [|y ys]; [done |]. reflexivity.
  - rewrite <- !app_comm_cons in *. rewrite !join_cons_cons, IH by done.
    by rewrite !string_app_assoc.
Qed.

(** C9. The exported text has one block per transcript entry, in transcript
    order, and two consecutive blocks are separated by one blank line (two
    line feeds).  A block is the entry's source between square brackets on a
    line of its own, then, when the entry has files, a line ["Files: "] with
    their names joined by [", "], then the entry's text.  The transcript of a
    user "hi" and an assistant "hello" exports as the two blocks
    [[user]] / hi and [[gemini]] / hello with a blank line between. *)
Theorem export_is_one_block_per_entry :
  (∀ entry,
     export_block entry =
       "[" +:+ Source_tag (source entry) +:+ "]" +:+ JS.LF +:+
       files_line entry +:+ text entry) ∧
  exported [] = "" ∧
  (∀ entry, exported [entry] = export_block entry) ∧
  (∀ t1 t2, t1 ≠ [] → t2 ≠ [] →
     exported (t1 ++ t2) = exported t1 +:+ JS.LF +:+ JS.LF +:+ exported t2) ∧
  exported [userMessage "hi" []; gemini_entry (final_text "hello")] =
    "[user]" +:+ JS.LF +:+ "hi" +:+ JS.LF +:+ JS.LF +:+
    "[gemini]" +:+ JS.LF +:+ "hello".
Proof.
  split; [| split; [| split; [| split]]]; try done.
  - intros entry. unfold export_block, files_line.
    destruct (files entry) as [[|f fs]|]; cbn [length Nat.ltb Nat.leb];
      by rewrite ?string_app_assoc.
  - intros t1 t2 H1 H2. unfold exported.
    rewrite map_app, join_app, string_app_assoc; [done | |];
      by destruct t1, t2.
Qed.

(** ** Preferences *)

Lemma spread_complete (base s : Settings) : spread base (complete s) = s.
Proof. by destruct s. Qed.

Section useSettings_reload.

Variable JSON_stringify : Settings → string.
Variable JSON_parse : string → option PartialSettings.

Lemma persist_accepted (h : Hook) :
  Storage.disabled (localStorage h) = false →
  Storage.full (localStorage h) = false →
  Storage.getItem (localStorage (persist_effect JSON_stringify h)) SETTINGS_KEY =
    inr (Some (JSON_stringify (hook_settings h))) ∧
  Storage.disabled (localStorage (persist_effect JSON_stringify h)) = false ∧
  Storage.full (localStorage (persist_effect JSON_stringify h)) = false ∧
  hook_settings (persist_effect JSON_stringify h) = hook_settings h.
Proof.
  intros Hd Hf. unfold persist_effect, Storage.setItem, Storage.getItem.
  rewrite Hd, Hf. cbn. by rewrite lookup_insert_eq.
Qed.

(** Any update is read back at the next mount, when the storage accepts the
    write and the parser reads back what was written. *)
Lemma reload_after_update (h : Hook) (root : bool) (newSettings : PartialSettings) :
  let next := updateSettings newSettings (hook_settings h) in
  let h' := update JSON_stringify newSettings h in
  Storage.disabled (localStorage h) = false →
  Storage.full (localStorage h) = false →
  JS.truthy (JSON_stringify next) = true →
  JSON_parse (JSON_stringify next) = Some (complete next) →
  hook_settings h' = next ∧
  load JSON_parse (localStorage h') = next ∧
  hook_settings (reload JSON_stringify JSON_parse root h') = next.
Proof.
  intros next h' Hd Hf Htruthy Hparse.
  set (h1 := {| hook_settings := next; localStorage := localStorage h;
                root_dark := root_dark h |}).
  destruct (persist_accepted h1 Hd Hf) as (Hget & Hd' & Hf' & Hset).
  assert (localStorage h' = localStorage (persist_effect JSON_stringify h1)
          ∧ hook_settings h' = next) as [Hls Hs'].
  { unfold h', update. fold next. fold h1. by destruct (decide _). }
  assert (load JSON_parse (localStorage h') = next) as Hload.
  { unfold load. rewrite Hls, Hget. cbn [hook_settings h1].
    by rewrite Htruthy, Hparse, spread_complete. }
  split; [done |]. split; [done |].
  unfold reload, useSettings. cbn [theme_effect hook_settings].
  assert (Storage.disabled (localStorage h') = false) as Hd2 by by rewrite Hls.
  assert (Storage.full (localStorage h') = false) as Hf2 by by rewrite Hls.
  by destruct (persist_accepted
                 {| hook_settings := load JSON_parse (localStorage h');
                    localStorage := localStorage h'; root_dark := root |}
                 Hd2 Hf2) as (_ & _ & _ & ->).
Qed.

(** C8. From any settings held by the hook, on a storage that accepts the
    write and with [JSON.parse] reading back what [JSON.stringify] wrote,
    [updateSettings({theme: 'light'})] followed by a reload gives settings
    whose theme is [light] and whose other four fields are those held
    before; so does reading the storage right after the update. *)
Theorem theme_update_survives_reload (h : Hook) (root : bool) :
  let next := updateSettings theme_light (hook_settings h) in
  let h' := update JSON_stringify theme_light h in
  let reloaded := reload JSON_stringify JSON_parse root h' in
  Storage.disabled (localStorage h) = false →
  Storage.full (localStorage h) = false →
  JS.truthy (JSON_stringify next) = true →
  JSON_parse (JSON_stringify next) = Some (complete next) →
  hook_settings h' = next ∧
  load JSON_parse (localStorage h') = next ∧
  hook_settings reloaded = next ∧
  next = {| systemPrompt := systemPrompt (hook_settings h);
            voice := voice (hook_settings h);
            textModel := textModel (hook_settings h);
            theme := light;
            sendOnEnter := sendOnEnter (hook_settings h) |} ∧
  root_dark reloaded = false.
Proof.
  intros next h' reloaded Hd Hf Htruthy Hparse.
  destruct (reload_after_update h root theme_light Hd Hf Htruthy Hparse)
    as (Hs' & Hload & Hre).
  split; [done |]. split; [done |]. split; [done |]. split; [done |].
  change (root_dark reloaded)
    with (if decide (theme (hook_settings reloaded) = light) then false else true).
  unfold reloaded, h'. by rewrite Hre.
Qed.

End useSettings_reload.

Lemma theme_update_survives_reload_witness :
  hook_settings
    (reload JSON.stringify JSON.parse true
       (update JSON.stringify theme_light example_hook)) =
  {| systemPrompt := "Be brief."; voice := Kore; textModel := gemini_2_5_pro;
     theme := light; sendOnEnter := true |}.
Proof.
  destruct (theme_update_survives_reload JSON.stringify JSON.parse example_hook true)
    as (_ & _ & Hre & _).
  - reflexivity.
  - reflexivity.
  - vm_compute. reflexivity.
  - vm_compute. reflexivity.
  - rewrite Hre. reflexivity.
Defined.

(** ** The codec reads back what it writes *)

Lemma read_string_quote_char (c : ascii) (tail : string) :
  JSON.read_string (JSON.quote_char c +:+ tail) =
    JSON.push c (JSON.read_string tail).
Proof.
  destruct c as [[] [] [] [] [] [] [] []];
    (lazy -[JSON.read_string]; cbn [JSON.read_string];
     lazy -[JSON.read_string]; reflexivity).
Qed.

Lemma read_string_quote_body (s rest : string) :
  JSON.read_string (JSON.quote_body s +:+ DQUOTE +:+ rest) = Some (s, rest).
Proof.
  induction s as [|c s IH]; [reflexivity |].
  cbn [JSON.quote_body]. by rewrite string_app_assoc, read_string_quote_char, IH.
Qed.

Lemma read_members_more_fuel (fuel : nat) :
  ∀ s ms, JSON.read_members fuel s = Some ms →
          JSON.read_members (S fuel) s = Some ms.
Proof.
  induction fuel as [|fuel IH]; intros s ms; [done |].
  intros H. cbn [JSON.read_members] in *.
  destruct s as [|q r]; [done |].
  destruct (nat_of_ascii q =? 34); [| done].
  destruct (JSON.read_string r) as [[key [|colon r2]]|]; try done.
  destruct (nat_of_ascii colon =? 58); [| done].
  destruct (JSON.read_value r2) as [[v [|d r3]]|]; try done.
  destruct (nat_of_ascii d =? 44); [| done].
  destruct (JSON.read_members fuel r3) as [ms'|] eqn:E; [| done].
  by rewrite (IH _ _ E).
Qed.

Lemma read_members_fuel (fuel fuel' : nat) (s : string)
    (ms : list (string * JSON.value)) :
  fuel ≤ fuel' → JSON.read_members fuel s = Some ms →
  JSON.read_members fuel' s = Some ms.
Proof.
  induction 1 as [|fuel' _ IH]; [done |].
  intros H. by apply read_members_more_fuel, IH.
Qed.

Lemma substring_all (s : string) : String.substring 0 (String.length s) s = s.
Proof. induction s as [|c s IH]; [done |]. cbn. by rewrite IH. Qed.

Lemma read_value_quote (x rest : string) :
  JSON.read_value (JSON.quote x +:+ rest) = Some (JSON.str x, rest).
Proof.
  unfold JSON.quote. rewrite !string_app_assoc.
  change (DQUOTE +:+ JSON.quote_body x +:+ DQUOTE +:+ rest)
    with (String (ascii_of_nat 34) (JSON.quote_body x +:+ DQUOTE +:+ rest)).
  cbn [JSON.read_value]. rewrite read_string_quote_body. reflexivity.
Qed.

Lemma read_value_boolean (b : bool) (rest : string) :
  JSON.read_value ((if b then "true" else "false") +:+ rest) =
    Some (JSON.boolean b, rest).
Proof.
  destruct b.
  - change ("true" +:+ rest) with (String "t" (String "r" (String "u" (String "e" rest)))).
    unfold JSON.read_value.
    change (nat_of_ascii "t" =? 34) with false. cbv iota.
    change (String.prefix "true" (String "t" (String "r" (String "u" (String "e" rest)))))
      with (String.prefix "" rest).
    rewrite prefix_nil.
    cbn [String.length Nat.sub String.substring]. by rewrite Nat.sub_0_r, substring_all.
  - change ("false" +:+ rest)
      with (String "f" (String "a" (String "l" (String "s" (String "e" rest))))).
    unfold JSON.read_value.
    change (nat_of_ascii "f" =? 34) with false. cbv iota.
    change (String.prefix "true" (String "f" _)) with false. cbv iota.
    change (String.prefix "false"
              (String "f" (String "a" (String "l" (String "s" (String "e" rest))))))
      with (String.prefix "" rest).
    rewrite prefix_nil.
    cbn [String.length Nat.sub String.substring]. by rewrite Nat.sub_0_r, substring_all.
Qed.

(** One member followed by a comma. *)
Lemma read_members_comma (fuel : nat) (key text rest : string) (v : JSON.value) :
  (∀ tail, JSON.read_value (text +:+ tail) = Some (v, tail)) →
  JSON.read_members (S fuel) (JSON.quote key +:+ ":" +:+ text +:+ "," +:+ rest) =
    match JSON.read_members fuel rest with
    | Some ms => Some ((key, v) :: ms)
    | None => None
    end.
Proof.
  intros Hv. unfold JSON.quote. rewrite !string_app_assoc.
  change (DQUOTE +:+ JSON.quote_body key +:+ DQUOTE +:+ ":" +:+ text +:+ "," +:+ rest)
    with (String (ascii_of_nat 34)
            (JSON.quote_body key +:+ DQUOTE +:+ String ":" (text +:+ String "," rest))).
  cbn [JSON.read_members]. rewrite read_string_quote_body.
  change (nat_of_ascii (ascii_of_nat 34) =? 34) with true.
  change (nat_of_ascii ":" =? 58) with true. cbn match.
  rewrite Hv. reflexivity.
Qed.

(** The last member, followed by the closing brace. *)
Lemma read_members_last (fuel : nat) (key text : string) (v : JSON.value) :
  (∀ tail, JSON.read_value (text +:+ tail) = Some (v, tail)) →
  JSON.read_members (S fuel) (JSON.quote key +:+ ":" +:+ text +:+ "}") =
    Some [(key, v)].
Proof.
  intros Hv. unfold JSON.quote. rewrite !string_app_assoc.
  change (DQUOTE +:+ JSON.quote_body key +:+ DQUOTE +:+ ":" +:+ text +:+ "}")
    with (String (ascii_of_nat 34)
            (JSON.quote_body key +:+ DQUOTE +:+ String ":" (text +:+ "}"))).
  cbn [JSON.read_members]. rewrite read_string_quote_body.
  change (nat_of_ascii (ascii_of_nat 34) =? 34) with true.
  change (nat_of_ascii ":" =? 58) with true. cbn match.
  rewrite Hv. reflexivity.
Qed.

Lemma read_members_string (fuel : nat) (key x rest : string) :
  JSON.read_members (S fuel)
    (JSON.quote key +:+ ":" +:+ JSON.quote x +:+ "," +:+ rest) =
    match JSON.read_members fuel rest with
    | Some ms => Some ((key, JSON.str x) :: ms)
    | None => None
    end.
Proof. apply read_members_comma. intros. apply read_value_quote. Qed.

Lemma read_members_boolean_last (fuel : nat) (key : string) (b : bool) :
  JSON.read_members (S fuel)
    (JSON.quote key +:+ ":" +:+ (if b then "true" else "false") +:+ "}") =
    Some [(key, JSON.boolean b)].
Proof. apply read_members_last. intros. apply read_value_boolean. Qed.

Lemma read_object_stringify (s : Settings) :
  JSON.read_object (JSON.stringify s) =
    Some [("systemPrompt", JSON.str (systemPrompt s));
          ("voice", JSON.str (JSON.Voice_name (voice s)));
          ("textModel", JSON.str (TextModel_id (textModel s)));
          ("theme", JSON.str (JSON.Theme_name (theme s)));
          ("sendOnEnter", JSON.boolean (sendOnEnter s))].
Proof.
  unfold JSON.stringify.
  set (members := JSON.quote "systemPrompt" +:+ _).
  change ("{" +:+ members) with (String "{" members).
  assert (JSON.read_members 5 members = Some
    [("systemPrompt", JSON.str (systemPrompt s));
          ("voice", JSON.str (JSON.Voice_name (voice s)));
          ("textModel", JSON.str (TextModel_id (textModel s)));
          ("theme", JSON.str (JSON.Theme_name (theme s)));
          ("sendOnEnter", JSON.boolean (sendOnEnter s))]) as Hm.
  { unfold members.
    by rewrite !read_members_string, read_members_boolean_last. }
  assert (∃ r, members =
               String (ascii_of_nat 34) (String "s" (String "y" (String "s" r))))
    as (r & Hc).
  { unfold members. by eexists. }
  unfold JSON.read_object.
  change (nat_of_ascii "{" =? 123) with true. cbv iota.
  rewrite Hc at 1.
  change (String.eqb (String (ascii_of_nat 34) (String "s" (String "y" (String "s" r)))) "}")
    with false.
  cbv iota. apply (read_members_fuel 5); [| done].
  rewrite Hc. cbn [String.length]. lia.
Qed.

Lemma parse_stringify (s : Settings) :
  JSON.parse (JSON.stringify s) = Some (complete s).
Proof.
  unfold JSON.parse. rewrite read_object_stringify.
  by destruct s as [sp [] [] [] []].
Qed.

Lemma stringify_truthy (s : Settings) : JS.truthy (JSON.stringify s) = true.
Proof. done. Qed.

(** With this codec and a storage that accepts the write, the update of the
    theme survives a reload from any settings. *)
Lemma theme_update_survives_reload_JSON (h : Hook) (root : bool) :
  Storage.disabled (localStorage h) = false →
  Storage.full (localStorage h) = false →
  hook_settings
    (reload JSON.stringify JSON.parse root (update JSON.stringify theme_light h)) =
  {| systemPrompt := systemPrompt (hook_settings h);
     voice := voice (hook_settings h);
     textModel := textModel (hook_settings h);
     theme := light;
     sendOnEnter := sendOnEnter (hook_settings h) |}.
Proof.
  intros Hd Hf.
  destruct (reload_after_update JSON.stringify JSON.parse h root theme_light Hd Hf
              (stringify_truthy _) (parse_stringify _)) as (_ & _ & ->).
  done.
Qed.

(** ** Closed instances *)

Lemma placeholder_only_last_and_only_while_processing_witness :
  placeholders (transcript example_busy) ≤ 1 ∧
  placeholders (transcript (send example_env (mount example_settings))) = 0.
Proof.
  split.
  - exact (proj1 (placeholder_only_last_and_only_while_processing
                    example_settings [change_input "hi"; click_send])).
  - reflexivity.
Defined.

Lemma export_is_one_block_per_entry_witness :
  exported [userMessage "see" [notes_txt; photo_png]] =
    "[user]" +:+ JS.LF +:+ "Files: notes.txt, photo.png" +:+ JS.LF +:+ "see".
Proof.
  rewrite (proj1 (proj2 (proj2 export_is_one_block_per_entry))).
  rewrite (proj1 export_is_one_block_per_entry).
  reflexivity.
Defined.

(** ** Fenced code blocks *)

Lemma string_length_app (a b : string) :
  String.length (a +:+ b) = String.length a + String.length b.
Proof.
  induction a as [|c a IH]; [done |].
  rewrite string_app_cons. cbn [String.length]. by rewrite IH.
Qed.

Lemma prefix_drop (p s : string) :
  String.prefix p s = true → s = p +:+ string_drop (String.length p) s.
Proof.
  rewrite prefix_spec. intros [r ->]. f_equal.
  induction p as [|c p IH]; [by destruct r |]. by rewrite string_app_cons.
Qed.

Lemma prefix_app_long (p u y : string) :
  String.length p ≤ String.length u →
  String.prefix p (u +:+ y) = String.prefix p u.
Proof.
  revert u. induction p as [|c p IH]; intros u Hl.
  - by rewrite !prefix_nil.
  - destruct u as [|d u]; [cbn in Hl; lia |].
    rewrite string_app_cons. cbn [String.prefix].
    destruct (Ascii.ascii_dec c d); [| done].
    apply IH. cbn in Hl. lia.
Qed.

Lemma word_run_spec (s run rest : string) :
  word_run s = (run, rest) → s = run +:+ rest.
Proof.
  revert run rest. induction s as [|c s IH]; intros run rest; cbn [word_run].
  - by intros [= <- <-].
  - destruct (word_or_hyphen c); [| by intros [= <- <-]].
    destruct (word_run s) as [run' rest']. intros [= <- <-].
    by rewrite string_app_cons, <- (IH run' rest').
Qed.

(** The run does not depend on what follows the character that ends it. *)
Lemma word_run_tail (s run body y : string) (c : ascii) :
  word_run s = (run, String c body) →
  word_run (run +:+ String c y) = (run, String c y).
Proof.
  revert run. induction s as [|d s IH]; intros run; cbn [word_run]; [done |].
  destruct (word_or_hyphen d) eqn:Ed.
  - destruct (word_run s) as [run' rest']. intros [= <- ->].
    rewrite string_app_cons. cbn [word_run]. rewrite Ed.
    by rewrite (IH run' eq_refl).
  - intros [= <- -> ->]. rewrite string_app_nil_l. cbn [word_run]. by rewrite Ed.
Qed.

Lemma lazy_until_close_spec (s body rest : string) :
  lazy_until_close s = Some (body, rest) → s = body +:+ FENCE_CLOSE +:+ rest.
Proof.
  revert body. induction s as [|c s IH]; intros body; [done |].
  cbn [lazy_until_close].
  destruct (String.prefix FENCE_CLOSE (String c s)) eqn:Ep.
  - intros [= <- <-]. rewrite string_app_nil_l. by apply (prefix_drop FENCE_CLOSE).
  - destruct (lazy_until_close s) as [[body' rest']|]; [| done].
    intros [= <- <-]. by rewrite string_app_cons, <- (IH body' eq_refl).
Qed.

(** The shortest body does not depend on what follows the closing. *)
Lemma lazy_until_close_tail (s body rest y : string) :
  lazy_until_close s = Some (body, rest) →
  lazy_until_close (body +:+ FENCE_CLOSE +:+ y) = Some (body, y).
Proof.
  revert body. induction s as [|c s IH]; intros body; [done |].
  cbn [lazy_until_close].
  destruct (String.prefix FENCE_CLOSE (String c s)) eqn:Ep.
  - intros [= <- <-].
    change ("" +:+ FENCE_CLOSE +:+ y) with (String (ascii_of_nat 10) ("```" +:+ y)).
    cbn [lazy_until_close].
    by rewrite (proj2 (prefix_spec FENCE_CLOSE _)) by (by exists y).
  - destruct (lazy_until_close s) as [[body' rest']|] eqn:El; [| done].
    intros [= <- <-].
    rewrite string_app_cons. cbn [lazy_until_close].
    rewrite (IH body' eq_refl).
    assert (String.prefix FENCE_CLOSE (String c (body' +:+ FENCE_CLOSE +:+ y)) = false)
      as ->; [| done].
    rewrite <- Ep, (lazy_until_close_spec _ _ _ El).
    rewrite <- !string_app_cons, <- !string_app_assoc.
    rewrite !(prefix_app_long FENCE_CLOSE (String c body' +:+ FENCE_CLOSE)); [done | |];
      rewrite string_length_app; cbn; lia.
Qed.

Lemma fence_at_spec (s : string) (m : FenceMatch) :
  fence_at s = Some m →
  s = fence_text (fence_language m) (fence_code m) +:+ fence_rest m ∧
  ∀ y, fence_at (fence_text (fence_language m) (fence_code m) +:+ y) =
       Some {| fence_language := fence_language m; fence_code := fence_code m;
               fence_rest := y |}.
Proof.
  unfold fence_at.
  destruct (String.prefix "```" s) eqn:Ep; [| done].
  apply (prefix_drop "```") in Ep. cbn [String.length] in Ep.
  destruct (word_run (string_drop 3 s)) as [language after] eqn:Ew.
  destruct after as [|c body]; [done |].
  destruct (Ascii.eqb_spec c (ascii_of_nat 10)) as [-> |]; [| done].
  destruct (lazy_until_close body) as [[code rest]|] eqn:El; [| done].
  intros [= <-]. cbn [fence_language fence_code fence_rest].
  split.
  - rewrite Ep at 1. rewrite (word_run_spec _ _ _ Ew).
    rewrite (lazy_until_close_spec _ _ _ El).
    unfold fence_text, JS.LF. by rewrite !string_app_assoc.
  - intros y.
    assert (fence_text language code +:+ y =
            "```" +:+ (language +:+ String (ascii_of_nat 10) (code +:+ FENCE_CLOSE +:+ y)))
      as -> by (unfold fence_text, JS.LF; by rewrite !string_app_assoc).
    change (String.prefix "```" ("```" +:+ ?x)) with (String.prefix "" x).
    rewrite prefix_nil.
    change (string_drop 3 ("```" +:+ ?x)) with x.
    rewrite (word_run_tail _ _ _ _ _ Ew).
    rewrite Ascii.eqb_refl. by rewrite (lazy_until_close_tail _ _ _ _ El).
Qed.

Lemma string_drop_app (k : nat) (p s : string) :
  k ≤ String.length p → string_drop k (p +:+ s) = string_drop k p +:+ s.
Proof.
  revert p. induction k as [|k IH]; intros p Hk; [by destruct p |].
  destruct p as [|c p]; [cbn in Hk; lia |].
  rewrite string_app_cons. cbn [string_drop]. apply IH. cbn in Hk. lia.
Qed.

Lemma string_drop_all (p s : string) :
  string_drop (String.length p) (p +:+ s) = s.
Proof.
  induction p as [|c p IH]; [by destruct s |].
  by rewrite string_app_cons.
Qed.

Lemma string_drop_0 (s : string) : string_drop 0 s = s.
Proof. by destruct s. Qed.

Lemma fence_at_app (b x : string) (m : FenceMatch) :
  fence_at b = Some m →
  fence_at (b +:+ x) =
    Some {| fence_language := fence_language m; fence_code := fence_code m;
            fence_rest := fence_rest m +:+ x |}.
Proof.
  intros H. destruct (fence_at_spec b m H) as [Hb Hy].
  rewrite Hb at 1. rewrite string_app_assoc. apply Hy.
Qed.

Lemma fence_rest_shorter (s : string) (m : FenceMatch) :
  fence_at s = Some m → String.length (fence_rest m) < String.length s.
Proof.
  intros H. destruct (fence_at_spec s m H) as [Hs _].
  rewrite Hs. unfold fence_text. rewrite !string_length_app. cbn. lia.
Qed.

Lemma fence_search_none (p : string) :
  (∀ k, k < String.length p → fence_at (string_drop k p) = None) →
  fence_search p = None.
Proof.
  induction p as [|c p IH]; intros H; [done |].
  cbn [fence_search].
  rewrite <- (string_drop_0 (String c p)), (H 0) by (cbn; lia).
  apply IH. intros k Hk. apply (H (S k)). cbn. lia.
Qed.

Lemma no_fence_search (pending s : string) :
  no_fence_before pending s → fence_search pending = None.
Proof.
  intros H. apply fence_search_none. intros k Hk.
  specialize (H k Hk). rewrite string_drop_app in H by lia.
  destruct (fence_at (string_drop k pending)) as [m|] eqn:E; [| done].
  by rewrite (fence_at_app _ s m E) in H.
Qed.

Lemma no_fence_step (pending r : string) (c : ascii) :
  no_fence_before pending (String c r) → fence_at (String c r) = None →
  no_fence_before (pending +:+ String c "") r.
Proof.
  intros H Hc k Hk. rewrite string_length_app in Hk. cbn in Hk.
  rewrite string_app_assoc. change (String c "" +:+ r) with (String c r).
  destruct (decide (k < String.length pending)) as [Hlt | Hge]; [by apply H |].
  assert (k = String.length pending) as -> by lia.
  by rewrite string_drop_all.
Qed.

Lemma word_run_closed (s run rest : string) :
  word_run s = (run, rest) → word_run run = (run, "").
Proof.
  revert run. induction s as [|c s IH]; intros run; cbn [word_run].
  - by intros [= <- <-].
  - destruct (word_or_hyphen c) eqn:Ec; [| by intros [= <- <-]].
    destruct (word_run s) as [run' rest']. intros [= <- <-].
    cbn [word_run]. by rewrite Ec, (IH run' eq_refl).
Qed.

Lemma fence_at_language (s : string) (m : FenceMatch) :
  fence_at s = Some m → word_run (fence_language m) = (fence_language m, "").
Proof.
  unfold fence_at. destruct (String.prefix "```" s); [| done].
  destruct (word_run (string_drop 3 s)) as [language after] eqn:Ew.
  destruct after as [|c body]; [done |].
  destruct (Ascii.eqb c (ascii_of_nat 10)); [| done].
  destruct (lazy_until_close body) as [[code rest]|]; [| done].
  intros [= <-]. cbn. by apply (word_run_closed _ _ _ Ew).
Qed.

Lemma fence_search_whole (s : string) (m : FenceMatch) :
  fence_at s = Some m →
  fence_search (fence_text (fence_language m) (fence_code m)) =
    Some {| fence_language := fence_language m; fence_code := fence_code m;
            fence_rest := "" |}.
Proof.
  intros H. destruct (fence_at_spec s m H) as [_ Hy].
  specialize (Hy ""). rewrite string_app_nil_r in Hy.
  unfold fence_text at 1. change ("```" +:+ ?x) with (String "`" ("``" +:+ x)).
  cbn [fence_search].
  change (String "`" ("``" +:+ ?x)) with ("```" +:+ x). fold (fence_text (fence_language m) (fence_code m)).
  by rewrite Hy.
Qed.

Lemma split_scan_alternating (fuel : nat) :
  ∀ s pending, String.length s ≤ fuel → no_fence_before pending s →
               alternating (split_scan fuel s pending).
Proof.
  induction fuel as [|fuel IH]; intros s pending Hl Hn.
  - destruct s; [| cbn in Hl; lia]. constructor. by apply (no_fence_search _ "").
  - destruct s as [|c r]; [constructor; by apply (no_fence_search _ "") |].
    cbn [split_scan]. destruct (fence_at (String c r)) as [m|] eqn:E.
    + constructor.
      * by apply (no_fence_search _ (String c r)).
      * by apply (fence_search_whole (String c r)).
      * by apply (fence_at_language (String c r)).
      * apply IH; [pose proof (fence_rest_shorter _ _ E); cbn in *; lia |].
        intros k Hk. cbn in Hk. lia.
    + apply IH; [cbn in Hl; lia |]. by apply no_fence_step.
Qed.

Lemma split_scan_join (fuel : nat) :
  ∀ s pending, String.length s ≤ fuel →
               JS.join (split_scan fuel s pending) "" = pending +:+ s.
Proof.
  induction fuel as [|fuel IH]; intros s pending Hl.
  - destruct s; [| cbn in Hl; lia]. cbn. by rewrite string_app_nil_r.
  - destruct s as [|c r]; [cbn; by rewrite string_app_nil_r |].
    cbn [split_scan]. destruct (fence_at (String c r)) as [m|] eqn:E.
    + rewrite !join_empty_cons, IH
        by (pose proof (fence_rest_shorter _ _ E); cbn in *; lia).
      rewrite string_app_nil_l.
      destruct (fence_at_spec _ _ E) as [Hs _]. by rewrite <- Hs.
    + rewrite IH by (cbn in Hl; lia). by rewrite string_app_assoc.
Qed.

Lemma split_fences_alternating (content : string) :
  alternating (split_fences content).
Proof.
  apply split_scan_alternating; [done |]. intros k Hk. cbn in Hk. lia.
Qed.

Lemma alternating_lookup (parts : list string) :
  alternating parts →
  Nat.odd (length parts) = true ∧
  ∀ i part, parts !! i = Some part →
    if Nat.even i then fence_search part = None
    else ∃ language code,
           part = fence_text language code ∧
           word_run language = (language, "") ∧
           fence_search part =
             Some {| fence_language := language; fence_code := code;
                     fence_rest := "" |}.
Proof.
  induction 1 as [t Ht | t language code parts Ht Hb Hw _ [IHo IHl]].
  - split; [done |]. intros [|i] part; [| done]. by intros [= <-].
  - split; [done |]. intros [|[|i]] part.
    + by intros [= <-].
    + intros [= <-]. by exists language, code.
    + intros Hp. apply (IHl i part Hp).
Qed.

(** X1. Splitting a text on fenced blocks loses nothing: the parts, joined
    with nothing between them, are the text. *)
Theorem split_fences_join (content : string) :
  JS.join (split_fences content) "" = content.
Proof. unfold split_fences. by rewrite split_scan_join. Qed.

Lemma render_part_text (part : string) :
  fence_search part = None → render_part part = span part.
Proof. unfold render_part. by intros ->. Qed.

(** X2. [ParsedContent] renders the parts of the split one for one, and
    their number is odd.  A part at an even index is shown as plain text and
    the pattern matches nowhere in it.  A part at an odd index is one whole
    fenced block: three backticks, a language made of word characters and
    hyphens, a line feed, the code, a line feed and three backticks; it is
    shown as a code block holding the code without the fence lines, under
    its language, or under [text] when the language is empty. *)
Theorem parsed_content_alternates (content : string) (i : nat) (part : string) :
  split_fences content !! i = Some part →
  Nat.odd (length (ParsedContent content)) = true ∧
  ParsedContent content !! i = Some (render_part part) ∧
  if Nat.even i then
    fence_search part = None ∧ render_part part = span part
  else
    ∃ language code,
      part = "```" +:+ language +:+ JS.LF +:+ code +:+ JS.LF +:+ "```" ∧
      word_run language = (language, "") ∧
      render_part part =
        code_block (if JS.truthy language then language else "text") code.
Proof.
  intros Hp.
  destruct (alternating_lookup _ (split_fences_alternating content)) as [Ho Hl].
  split; [unfold ParsedContent; by rewrite length_map |].
  split; [unfold ParsedContent; by rewrite list_lookup_fmap, Hp |].
  specialize (Hl i part Hp). destruct (Nat.even i).
  - split; [done | by apply render_part_text].
  - destruct Hl as (language & code & -> & Hw & Hs).
    exists language, code. split; [done |]. split; [done |].
    unfold render_part. by rewrite Hs.
Qed.

Lemma parsed_content_alternates_witness :
  ParsedContent example_answer !! 1 = Some (code_block "bash" "ls -l").
Proof.
  destruct (parsed_content_alternates example_answer 1
              ("```bash" +:+ JS.LF +:+ "ls -l" +:+ JS.LF +:+ "```"))
    as (_ & Hr & _).
  - reflexivity.
  - rewrite Hr. reflexivity.
Defined.

Lemma string_drop_suffix (k : nat) (s : string) :
  ∃ before, s = before +:+ string_drop k s.
Proof.
  revert s. induction k as [|k IH]; intros s; [exists ""; by destruct s |].
  destruct s as [|c s]; [by exists "" |].
  destruct (IH s) as [before Hb]. exists (String c before).
  cbn [string_drop]. by rewrite string_app_cons, <- Hb.
Qed.

Lemma split_scan_plain (fuel : nat) :
  ∀ s pending, String.length s ≤ fuel → fence_search s = None →
               split_scan fuel s pending = [pending +:+ s].
Proof.
  induction fuel as [|fuel IH]; intros s pending Hl Hs.
  - destruct s; [| cbn in Hl; lia]. cbn. by rewrite string_app_nil_r.
  - destruct s as [|c r]; [cbn; by rewrite string_app_nil_r |].
    cbn [split_scan]. cbn [fence_search] in Hs.
    destruct (fence_at (String c r)); [done |].
    rewrite IH; [by rewrite string_app_assoc | cbn in Hl; lia | done].
Qed.

Lemma no_backticks_no_fence (s : string) :
  JS.includes s "```" = false → fence_search s = None.
Proof.
  induction s as [|c r IH]; [done |].
  cbn [JS.includes fence_search]. intros [Hp Hr]%orb_false_iff.
  unfold fence_at. rewrite Hp. by apply IH.
Qed.

(** X3. A text in which the pattern matches nowhere is rendered as one plain
    span holding the whole text, and only such a text is; in particular a
    text without three backticks in a row, and a fence that is opened but
    never closed on a line of its own. *)
Theorem text_without_fence_is_one_span (content : string) :
  (fence_search content = None ↔ ParsedContent content = [span content]) ∧
  (JS.includes content "```" = false → ParsedContent content = [span content]) ∧
  (JS.includes content FENCE_CLOSE = false → ParsedContent content = [span content]).
Proof.
  assert (fence_search content = None → ParsedContent content = [span content])
    as Hplain.
  { intros Hs. unfold ParsedContent, split_fences.
    rewrite split_scan_plain by done. cbn. by rewrite render_part_text. }
  split; [split; [done |] | split].
  - intros Hp. unfold ParsedContent in Hp.
    pose proof (split_fences_alternating content) as Ha.
    assert (JS.join (split_fences content) "" = content) as Hj
      by (unfold split_fences; by rewrite split_scan_join).
    destruct (split_fences content) as [|p [|q ps]]; try done.
    change (JS.join [p] "") with p in Hj. subst p.
    by inversion Ha.
  - intros Hi. by apply Hplain, no_backticks_no_fence.
  - intros Hi. apply Hplain.
    apply fence_search_none. intros k _.
    destruct (fence_at (string_drop k content)) as [m|] eqn:E; [| done].
    destruct (fence_at_spec _ _ E) as [Hs _].
    assert (JS.includes content FENCE_CLOSE = true) as Hc; [| by rewrite Hc in Hi].
    apply includes_spec.
    destruct (string_drop_suffix k content) as [before Hb].
    exists (before +:+ "```" +:+ fence_language m +:+ JS.LF +:+ fence_code m),
           (fence_rest m).
    rewrite Hb at 1. rewrite Hs. unfold fence_text.
    by rewrite !string_app_assoc.
Qed.

(** ** Download names of code snippets *)

Lemma find_absent {A} (f : A → bool) (l : list A) :
  (∀ x, In x l → f x = false) → find f l = None.
Proof.
  induction l as [|x l IH]; intros H; [done |].
  cbn. rewrite (H x) by by left. apply IH. intros y Hy. apply H. by right.
Qed.

(** X4. The download name of a snippet follows the language in lower case:
    for one of the fourteen languages of the table it ends in the table's
    extension; for any other language it ends in [txt], unless the language
    is [constructor] or [__proto__] in any letter case, for which the lookup
    finds an inherited property that is no string and the fallback to [txt]
    does not apply. *)
Theorem snippet_name_by_language (language : string) :
  let lang := toLowerCase language in
  (∀ ext, In (lang, ext) extension_map →
          snippet_name language = "code-snippet." +:+ ext) ∧
  (¬ In lang (map fst extension_map) →
   lang ≠ "constructor" → lang ≠ "__proto__" →
   snippet_name language = "code-snippet.txt") ∧
  (lang = "constructor" ∨ lang = "__proto__" →
   ∀ ext, getFileExtension language ≠ extension ext).
Proof.
  intros lang. split; [| split].
  - intros ext Hin. unfold snippet_name, getFileExtension. fold lang.
    cbn in Hin.
    repeat (destruct Hin as [[= Hl He] | Hin];
            [rewrite <- Hl, <- He; reflexivity |]).
    done.
  - intros Hnot Hc Hp. unfold snippet_name, getFileExtension. fold lang.
    assert (find (λ p : string * string, String.eqb (fst p) lang) extension_map
            = None) as ->.
    { apply find_absent. intros [k e] Hin. cbn.
      apply String.eqb_neq. intros ->. apply Hnot.
      by apply (in_map fst) in Hin. }
    cbn. by rewrite (proj2 (String.eqb_neq _ _) Hc), (proj2 (String.eqb_neq _ _) Hp).
  - intros Hl ext. unfold getFileExtension. fold lang.
    by destruct Hl as [-> | ->].
Qed.

(** ** What every send does *)

Lemma classify_reads (env : Environment) (files : list File.t) :
  ∀ l l', classify env l files = inr l' → reads_succeed env files.
Proof.
  induction files as [|file rest IH]; intros l l' H f Hf; [by inversion Hf |].
  cbn [classify] in H.
  assert (∀ l0 l1, classify env l0 rest = inr l1 →
                   f ∈ rest →
                   (supported_image f = true → ∃ r, readAsDataURL env f = inr r) ∧
                   (text_file f = true → ∃ r, readAsText env f = inr r)) as Hrest
    by (intros l0 l1 H0 Hin; by apply (IH l0 l1 H0)).
  apply list_elem_of_In in Hf. destruct Hf as [<- | Hf%list_elem_of_In].
  - destruct (supported_image file) eqn:Ei.
    + destruct (readAsDataURL env file) as [|result]; [done |].
      split; [by eauto | intros Ht; by rewrite (text_file_not_image _ Ht) in Ei].
    + destruct (text_file file) eqn:Et.
      * destruct (readAsText env file) as [|result]; [done |].
        split; [done | by eauto].
      * done.
  - destruct (supported_image file).
    { destruct (readAsDataURL env file); [done |]. by apply (Hrest _ _ H). }
    destruct (text_file file).
    { destruct (readAsText env file); [done |]. by apply (Hrest _ _ H). }
    by apply (Hrest _ _ H).
Qed.

Lemma filter_unsupported_nil (files : list File.t) :
  List.filter unsupported files = [] ↔
  ∀ file, file ∈ files → unsupported file = false.
Proof.
  induction files as [|f fs IH]; [split; [intros _ x Hx; by inversion Hx | done] |].
  cbn [List.filter]. destruct (unsupported f) eqn:Eu.
  - split; [done |]. intros H. by rewrite (H f) in Eu by by left.
  - rewrite IH. split.
    + intros H x Hx. apply list_elem_of_In in Hx. destruct Hx as [<- | Hx]; [done |].
      by apply H, list_elem_of_In.
    + intros H x Hx. apply H. by right.
Qed.

(** X5. In every mode an accepted send issues at most one remote call, and
    it issues one exactly when none of the attached files is unsupported and
    every file read succeeds. *)
Theorem send_issues_one_call_or_none (env : Environment) (a : App) :
  rejected_send a = false → inflight a = [] →
  (calls (send env a) = calls a ∨ ∃ req, calls (send env a) = calls a ++ [req]) ∧
  ((∃ req, calls (send env a) = calls a ++ [req]) ↔
   (∀ file, file ∈ uploadedFiles a → unsupported file = false) ∧
   reads_succeed env (uploadedFiles a)).
Proof.
  intros Hg Hi. rewrite send_accepted, complete_send_calls by done.
  destruct (classify env (locals_of a) (uploadedFiles a)) as [e | l'] eqn:Ec.
  - split; [by left |]. split.
    + intros [req Hreq]. apply (f_equal length) in Hreq.
      rewrite length_app in Hreq. cbn in Hreq. lia.
    + intros [_ Hr].
      destruct (classify_reads_succeed env _ Hr (locals_of a)) as [l' El].
      by rewrite El in Ec.
  - pose proof (classify_unsupported env _ _ _ Ec) as Hu. cbn in Hu.
    destruct (unsupportedFiles l') as [|n ns] eqn:En; cbn [length Nat.ltb Nat.leb].
    + split; [right; by eexists |]. split; [intros _ | by eexists].
      split; [| by apply (classify_reads env _ _ _ Ec)].
      apply filter_unsupported_nil.
      by destruct (List.filter unsupported (uploadedFiles a)).
    + split; [by left |]. split.
      * intros [req Hreq]. apply (f_equal length) in Hreq.
        rewrite length_app in Hreq. cbn in Hreq. lia.
      * intros [Hsup _]. apply filter_unsupported_nil in Hsup.
        by rewrite Hsup in Hu.
Qed.

Lemma send_issues_one_call_or_none_witness :
  ∃ req, calls (send example_env (example_with_text mode_default)) = [req].
Proof.
  apply (send_issues_one_call_or_none example_env (example_with_text mode_default));
    [reflexivity | reflexivity |].
  split.
  - intros file Hin. apply list_elem_of_In in Hin.
    destruct Hin as [<- | []]. reflexivity.
  - intros file Hin. split; intros _; eexists; reflexivity.
Defined.

Lemma for_files_composer (c : Closure) (files : list File.t) :
  ∀ l a,
    inputText (for_files c l files a) = inputText a ∧
    uploadedFiles (for_files c l files a) = uploadedFiles a ∧
    chatMode (for_files c l files a) = chatMode a ∧
    settings (for_files c l files a) = settings a.
Proof.
  induction files as [|file rest IH]; intros l a; cbn [for_files].
  - unfold after_loop, call_generateContent.
    destruct (0 <? length (unsupportedFiles l)); [done |].
    by destruct (cl_chatMode c).
  - destruct (JS.array_includes _ _); [done |].
    destruct (JS.startsWith _ _); [done |]. apply IH.
Qed.

Lemma for_files_transcript (c : Closure) (files : list File.t) :
  ∀ l a t x, transcript a = t ++ [x] →
    ∃ y, transcript (for_files c l files a) = t ++ [y].
Proof.
  induction files as [|file rest IH]; intros l a t x Ht; cbn [for_files].
  - unfold after_loop, call_generateContent.
    destruct (0 <? length (unsupportedFiles l)).
    + eexists. by apply (transcript_replace_last _ x).
    + destruct (cl_chatMode c); try by exists x.
      eexists. by apply (transcript_replace_last _ x).
  - destruct (JS.array_includes _ _); [by exists x |].
    destruct (JS.startsWith _ _); [by exists x |]. by apply (IH _ _ _ x).
Qed.

Lemma complete_send_composer (env : Environment) (c : Closure) (l : Locals)
    (files : list File.t) (a : App) :
  inputText (complete_send env c l files a) = inputText a ∧
  uploadedFiles (complete_send env c l files a) = uploadedFiles a ∧
  chatMode (complete_send env c l files a) = chatMode a ∧
  settings (complete_send env c l files a) = settings a ∧
  (isKeySelected (complete_send env c l files a) = isKeySelected a ∨
   isKeySelected (complete_send env c l files a) = false).
Proof.
  unfold complete_send, conclude, catch_block, before_call.
  destruct (classify env l files) as [e | l'].
  - destruct (key_rejected _); cbn; tauto.
  - destruct (0 <? length (unsupportedFiles l')); [cbn; tauto |].
    destruct (generateContent env _) as [e | r].
    + destruct (key_rejected _), (cl_chatMode c); cbn; tauto.
    + destruct (cl_chatMode c); cbn; tauto.
Qed.

Lemma complete_send_reply (env : Environment) (c : Closure) (l : Locals)
    (files : list File.t) (a : App) (t : list TranscriptEntry) (x : TranscriptEntry) :
  transcript a = t ++ [x] →
  ∃ fe, transcript (complete_send env c l files a) = t ++ [gemini_entry fe].
Proof.
  intros Ht. unfold complete_send, conclude.
  destruct (classify env l files) as [e | l'].
  - eexists. by apply (transcript_caught e x).
  - destruct (0 <? length (unsupportedFiles l')).
    + eexists. by apply (transcript_replace_last _ x).
    + destruct (transcript_before_call c x t a Ht) as [y Hy].
      destruct (generateContent env _) as [e | r].
      * eexists. by apply (transcript_caught e y).
      * eexists. by apply (transcript_replace_last _ y).
Qed.

(** X6. An accepted send empties the composer at once and shows the user
    entry followed by one entry of the assistant; when it has ended, whatever
    the files and the answers were, the transcript is the one before the
    send followed by exactly two entries, the user entry with the text and
    the file names and one finished assistant entry.  The send leaves the
    mode and the settings alone, ends in [IDLE], and can lower the key flag
    but never raise it. *)
Theorem accepted_send_adds_two_entries (env : Environment) (a : App) :
  rejected_send a = false → inflight a = [] →
  (inputText (handleSend a) = "" ∧ uploadedFiles (handleSend a) = [] ∧
   ∃ shown, transcript (handleSend a) =
              transcript a ++ [userMessage (inputText a) (uploadedFiles a); shown]) ∧
  (∃ reply, transcript (send env a) =
              transcript a ++
              [userMessage (inputText a) (uploadedFiles a); gemini_entry reply]) ∧
  inputText (send env a) = "" ∧ uploadedFiles (send env a) = [] ∧
  chatMode (send env a) = chatMode a ∧ settings (send env a) = settings a ∧
  conversationState (send env a) = IDLE ∧
  (isKeySelected (send env a) = isKeySelected a ∨ isKeySelected (send env a) = false).
Proof.
  intros Hg Hi. split.
  - rewrite handleSend_accepted by done.
    destruct (for_files_composer (closure_of a) (uploadedFiles a) (locals_of a)
                (entered a)) as (-> & -> & _).
    split; [done |]. split; [done |].
    destruct (for_files_transcript (closure_of a) (uploadedFiles a) (locals_of a)
                (entered a) _ _ (transcript_entered a)) as [y Hy].
    exists y. by rewrite Hy, <- app_assoc.
  - rewrite send_accepted by done.
    destruct (complete_send_composer env (closure_of a) (locals_of a)
                (uploadedFiles a) (entered a)) as (-> & -> & -> & -> & Hk).
    destruct (complete_send_reply env (closure_of a) (locals_of a)
                (uploadedFiles a) (entered a) _ _ (transcript_entered a))
      as [fe Hfe].
    split; [exists fe; by rewrite Hfe, <- app_assoc |].
    by rewrite complete_send_state.
Qed.

Lemma accepted_send_adds_two_entries_witness :
  length (transcript (send example_env (example_with_text mode_reasoning))) = 2.
Proof.
  destruct (accepted_send_adds_two_entries example_env
              (example_with_text mode_reasoning))
    as (_ & (reply & Hr) & _).
  - reflexivity.
  - reflexivity.
  - rewrite Hr. reflexivity.
Defined.

Lemma classify_imageParts (env : Environment) (files : list File.t) :
  ∀ l l', classify env l files = inr l' →
    imageParts l' = imageParts l ++ image_parts env files.
Proof.
  induction files as [|file rest IH]; intros l l'; cbn [classify].
  - intros [= <-]. by rewrite app_nil_r.
  - unfold image_parts. cbn [flat_map]. fold (image_parts env rest).
    destruct (supported_image file).
    { destruct (readAsDataURL env file); [done |]. intros H. rewrite (IH _ _ H).
      cbn. by rewrite <- app_assoc. }
    destruct (text_file file).
    { destruct (readAsText env file); [done |]. intros H. by rewrite (IH _ _ H). }
    intros H. by rewrite (IH _ _ H).
Qed.

Lemma image_parts_read (env : Environment) (files : list File.t) :
  reads_succeed env files →
  Forall2
    (λ file part,
       mimeType part = File.type file ∧
       ∃ result, readAsDataURL env file = inr result ∧
                 data part = JS.split result "," !! 1)
    (List.filter supported_image files) (image_parts env files).
Proof.
  induction files as [|file rest IH]; intros Hr; [constructor |].
  assert (reads_succeed env rest) as Hrest.
  { intros f Hf. apply Hr. by right. }
  unfold image_parts. cbn [flat_map List.filter]. fold (image_parts env rest).
  destruct (supported_image file) eqn:Ei; [| by apply IH].
  destruct (Hr file) as [[result Hres] _]; [by left | done |].
  rewrite Hres. cbn [app]. constructor; [| by apply IH].
  split; [done |]. by exists result.
Qed.

(** X7. When no attached file is unsupported and every read succeeds, the
    one request of a send is fixed by the mode, the settings and the
    composer as they were when the send was called.  Outside image mode its
    body holds the blocks of the text files, last attached first, then the
    input text; with no image attached the body is that string, otherwise it
    is that text as first part followed by the images in the order they were
    attached, each with the MIME type of its file and the text after the
    first comma of its data URL.  Default mode uses the model of the settings
    and their system prompt, except that an attached image forces
    [gemini-2.5-flash]; search uses [gemini-2.5-flash] with the search tool
    and reasoning [gemini-2.5-pro], both without the system prompt. *)
Theorem request_of_a_send (env : Environment) (a : App) :
  rejected_send a = false → inflight a = [] →
  (∀ file, file ∈ uploadedFiles a → unsupported file = false) →
  reads_succeed env (uploadedFiles a) →
  let text := JS.join (rev (text_blocks env (uploadedFiles a))) "" +:+ inputText a in
  let images := image_parts env (uploadedFiles a) in
  let body :=
    if 0 <? length images
    then contents_parts (text_part text :: map inline_part images)
    else contents_string text in
  calls (send env a) =
    calls a ++
    [match chatMode a with
     | mode_default =>
         {| model := if 0 <? length images then "gemini-2.5-flash"
                     else TextModel_id (textModel (settings a));
            contents := body;
            config := Some {| tools := None; responseModalities := None;
                              systemInstruction := Some (systemPrompt (settings a)) |} |}
     | mode_search =>
         {| model := "gemini-2.5-flash"; contents := body;
            config := Some {| tools := Some [googleSearch];
                              responseModalities := None;
                              systemInstruction := None |} |}
     | mode_image =>
         {| model := "gemini-2.5-flash-image";
            contents := contents_parts [text_part (inputText a)];
            config := Some {| tools := None; responseModalities := Some [IMAGE];
                              systemInstruction := None |} |}
     | mode_reasoning =>
         {| model := "gemini-2.5-pro"; contents := body; config := None |}
     end] ∧
  Forall2
    (λ file part,
       mimeType part = File.type file ∧
       ∃ result, readAsDataURL env file = inr result ∧
                 data part = JS.split result "," !! 1)
    (List.filter supported_image (uploadedFiles a)) images.
Proof.
  intros Hg Hi Hsup Hr text images body.
  split; [| by apply image_parts_read].
  destruct (classify_supported env (uploadedFiles a) (locals_of a) Hsup Hr eq_refl)
    as (l' & El & Hu).
  pose proof (classify_textParts env _ _ _ El) as Ht. cbn in Ht.
  pose proof (classify_imageParts env _ _ _ El) as Him. cbn in Him.
  rewrite send_accepted, complete_send_calls, El, Hu by done.
  cbn [length Nat.ltb Nat.leb]. f_equal. f_equal.
  assert (combinedText l' = text) as Hc.
  { unfold combinedText, text. by rewrite Ht, join_empty_app. }
  assert (contents_of l' = body) as Hb.
  { unfold contents_of, body, images. by rewrite Him, Hc. }
  unfold request_of, default_request, search_request, reasoning_request,
    image_request.
  cbn [closure_of cl_chatMode cl_settings cl_inputText].
  rewrite Hb, Him. by destruct (chatMode a).
Qed.

Lemma request_of_a_send_witness :
  model <$> last (calls (send example_env
                    (run [change_input "look"; change_files (Some [photo_png])]
                         (mount example_settings)))) = Some "gemini-2.5-flash".
Proof.
  destruct (request_of_a_send example_env
              (run [change_input "look"; change_files (Some [photo_png])]
                   (mount example_settings))) as [Hc _].
  - reflexivity.
  - reflexivity.
  - intros file Hin. apply list_elem_of_In in Hin.
    destruct Hin as [<- | []]. reflexivity.
  - intros file Hin. split; intros _; eexists; reflexivity.
  - rewrite Hc. reflexivity.
Defined.

Lemma find_imagePart_parts (r : Response) :
  find_imagePart r =
    find (λ part, bool_decide (is_Some (part_inlineData part))) (parts_of r).
Proof.
  unfold find_imagePart, parts_of.
  by destruct (JS.chain (JS.chain (JS.chain (candidates r) head) content) content_parts).
Qed.

Lemma find_first {A} (f : A → bool) (before after : list A) (x : A) :
  Forall (λ y, f y = false) before → f x = true →
  find f (before ++ x :: after) = Some x.
Proof.
  induction 1 as [|y before Hy _ IH]; intros Hx; cbn; [by rewrite Hx |].
  rewrite Hy. by apply IH.
Qed.

(** X8. In image mode, when the remote call answers, the entry that ends
    the send is built from the first part of the first candidate that
    carries inline data: it has no text and its image URL is [data:], the
    MIME type, [;base64,] and the data of that part.  When no part of the
    first candidate carries inline data, the entry is the fixed failure
    message and has no image.  With no file attached, the progress message
    quoting the input text is in the transcript from the moment of the
    send. *)
Theorem image_mode_answer (env : Environment) (a : App) (r : Response) :
  chatMode a = mode_image → rejected_send a = false → inflight a = [] →
  (∀ file, file ∈ uploadedFiles a → unsupported file = false) →
  reads_succeed env (uploadedFiles a) →
  (∀ req, generateContent env req = inr r) →
  ∃ reply,
    transcript (send env a) =
      transcript a ++
      [userMessage (inputText a) (uploadedFiles a); gemini_entry reply] ∧
    (∀ before part after blob,
       parts_of r = before ++ part :: after →
       Forall (λ p, part_inlineData p = None) before →
       part_inlineData part = Some blob →
       reply = {| fe_text := "";
                  fe_imageUrl :=
                    Some ("data:" +:+ JS.interpolate (blob_mimeType blob) +:+
                          ";base64," +:+ JS.interpolate (blob_data blob));
                  fe_sources := None |}) ∧
    (Forall (λ p, part_inlineData p = None) (parts_of r) →
     reply = final_text IMAGE_FAILED) ∧
    (uploadedFiles a = [] →
     transcript (handleSend a) =
       transcript a ++
       [userMessage (inputText a) [];
        gemini_entry (final_text (generating_message (inputText a)))]).
Proof.
  intros Hm Hg Hi Hsup Hr Hok.
  destruct (classify_supported env (uploadedFiles a) (locals_of a) Hsup Hr eq_refl)
    as (l' & El & Hu).
  exists (finalEntry_of mode_image r).
  split; [| split; [| split]].
  - rewrite send_accepted by done. unfold complete_send, conclude.
    rewrite El, Hu, Hok. cbn [length Nat.ltb Nat.leb].
    rewrite transcript_answered. cbn [closure_of cl_chatMode]. by rewrite Hm.
  - intros before part after blob Hp Hb Hblob.
    unfold finalEntry_of. rewrite find_imagePart_parts, Hp.
    rewrite (find_first _ before after part).
    + cbn [JS.chain]. by rewrite Hblob.
    + eapply Forall_impl; [exact Hb |]. intros p Hn. cbn. by rewrite Hn.
    + by rewrite Hblob.
  - intros Hnone. unfold finalEntry_of. rewrite find_imagePart_parts.
    rewrite find_absent; [done |].
    intros p Hp. apply list_elem_of_In in Hp.
    by rewrite (proj1 (Forall_forall _ _) Hnone p Hp).
  - intros Hf. rewrite handleSend_accepted by done. rewrite Hf.
    cbn [for_files]. unfold after_loop. cbn [locals_of unsupportedFiles length].
    cbn [Nat.ltb Nat.leb closure_of cl_chatMode]. rewrite Hm.
    unfold call_generateContent.
    cbn [suspend set_inflight record_call transcript].
    erewrite transcript_replace_last by apply transcript_entered.
    by rewrite Hf, <- app_assoc.
Qed.

Lemma image_mode_answer_witness :
  ∃ reply,
    transcript (send example_env (example_with_text mode_image)) =
      [userMessage "hi" [notes_txt]; gemini_entry reply] ∧
    reply = final_text IMAGE_FAILED.
Proof.
  destruct (image_mode_answer example_env (example_with_text mode_image)
              example_response) as (reply & Ht & _ & Hfail & _).
  - reflexivity.
  - reflexivity.
  - reflexivity.
  - intros file Hin. apply list_elem_of_In in Hin.
    destruct Hin as [<- | []]. reflexivity.
  - intros file Hin. split; intros _; eexists; reflexivity.
  - intros req. reflexivity.
  - exists reply. split; [exact Ht |]. apply Hfail. constructor.
Defined.

(** ** A send in flight and the other events *)

Section recompose.

Variable on_input : string → string.
Variable on_files : list File.t → list File.t.
Variable on_mode : ChatMode → ChatMode.
Variable on_settings : Settings → Settings.

Lemma after_loop_recompose (c : Closure) (l : Locals) (a : App) :
  after_loop c l (recompose on_input on_files on_mode on_settings a) = recompose on_input on_files on_mode on_settings (after_loop c l a).
Proof.
  unfold after_loop. destruct (0 <? length (unsupportedFiles l)); [done |].
  by destruct (cl_chatMode c).
Qed.

Lemma for_files_recompose (c : Closure) (files : list File.t) :
  ∀ l a, for_files c l files (recompose on_input on_files on_mode on_settings a) = recompose on_input on_files on_mode on_settings (for_files c l files a).
Proof.
  induction files as [|file rest IH]; intros l a; cbn [for_files].
  - apply after_loop_recompose.
  - destruct (JS.array_includes _ _); [done |].
    destruct (JS.startsWith _ _); [done |]. apply IH.
Qed.

Lemma resume_recompose (fr : Frame) (v : Settled) (a : App) :
  resume fr v (recompose on_input on_files on_mode on_settings a) = recompose on_input on_files on_mode on_settings <$> resume fr v a.
Proof.
  unfold resume.
  destruct (awaiting fr), v; cbn [fmap option_fmap option_map];
    rewrite ?for_files_recompose; try done;
    unfold catch_block; by destruct (key_rejected _).
Qed.

Lemma settle_recompose (i : nat) (v : Settled) (a : App) :
  apply_event (settle i v) (recompose on_input on_files on_mode on_settings a) = recompose on_input on_files on_mode on_settings (apply_event (settle i v) a).
Proof.
  cbn [apply_event].
  change (inflight (recompose on_input on_files on_mode on_settings a)) with (inflight a).
  destruct (inflight a !! i) as [fr|]; [| done].
  change (set_inflight (delete i) (recompose on_input on_files on_mode on_settings a)) with (recompose on_input on_files on_mode on_settings (set_inflight (delete i) a)).
  rewrite resume_recompose. by destruct (resume fr v _).
Qed.

End recompose.

(** X9. A send in flight does not see what is typed, attached, removed or
    selected after it was called: settling one of its promises and an event
    of the composer or of the settings panel give the same state in either
    order.  So the request, the answer's entry and the end of the send are
    those of the mode, settings and input at the time of the send. *)
Theorem settlement_commutes_with_composer (e : Event) (i : nat) (v : Settled)
    (a : App) :
  composer_event e = true →
  apply_event (settle i v) (apply_event e a) =
    apply_event e (apply_event (settle i v) a).
Proof.
  destruct e as [| key shift | value | selected | file | mode | | p | ok | j w];
    try done; intros _; cbn [apply_event].
  - apply (settle_recompose (λ _, value) id id id).
  - destruct selected as [fs|]; [| done].
    apply (settle_recompose id (λ prev, prev ++ fs) id id).
  - apply (settle_recompose id
             (λ prev, List.filter (λ f, negb (File.id f =? File.id file)) prev)
             id id).
  - apply (settle_recompose id id (λ _, mode) id).
  - apply (settle_recompose id id id (updateSettings p)).
Qed.

Lemma settlement_commutes_with_composer_witness :
  calls (apply_event (settle 0 (response example_response))
           (apply_event (click_mode mode_image) example_busy)) =
  calls (apply_event (settle 0 (response example_response)) example_busy).
Proof.
  rewrite (settlement_commutes_with_composer (click_mode mode_image) 0
             (response example_response) example_busy eq_refl).
  reflexivity.
Defined.

(** X10. Clearing the history does not cancel a request in flight.  When the
    remote call then settles, by an answer or a rejection, the entry that
    ends the send becomes the only entry of the transcript, without the
    user entry it answers, and the send ends in [IDLE]; it is the entry the
    transcript would have ended with had the history not been cleared. *)
Theorem clear_history_keeps_the_answer (a : App) (fr : Frame) (req : Request)
    (v : Settled) :
  inflight a = [fr] → awaiting fr = await_generateContent req →
  (∀ result, v ≠ reader_result result) →
  ∃ reply,
    transcript (apply_event (settle 0 v) (apply_event clear_history a)) =
      [gemini_entry reply] ∧
    transcript (apply_event (settle 0 v) a) =
      removelast (transcript a) ++ [gemini_entry reply] ∧
    conversationState (apply_event (settle 0 v) (apply_event clear_history a)) = IDLE ∧
    inflight (apply_event (settle 0 v) (apply_event clear_history a)) = [].
Proof.
  intros Hi Ha Hv.
  destruct a as [t cs cm it uf ks st inf cl]. cbn in Hi. subst inf.
  cbn [apply_event handleClearHistory setTranscript inflight lookup list_lookup].
  unfold resume. rewrite Ha.
  destruct v as [result | r | e]; [by destruct (Hv result) | |].
  - by exists (finalEntry_of (cl_chatMode (closure fr)) r).
  - exists (final_text (catch_text e)). unfold catch_block, catch_text.
    by destruct (key_rejected _).
Qed.

Lemma clear_history_keeps_the_answer_witness :
  ∃ reply,
    transcript (run [clear_history; settle 0 (response example_response)] example_busy)
    = [gemini_entry reply].
Proof.
  destruct (clear_history_keeps_the_answer example_busy
              {| closure := closure_of (run [change_input "hi"] (mount example_settings));
                 locals := locals_of (run [change_input "hi"] (mount example_settings));
                 remaining := [];
                 awaiting := await_generateContent
                   (default_request
                      (closure_of (run [change_input "hi"] (mount example_settings)))
                      (locals_of (run [change_input "hi"] (mount example_settings)))) |}
              (default_request
                 (closure_of (run [change_input "hi"] (mount example_settings)))
                 (locals_of (run [change_input "hi"] (mount example_settings))))
              (response example_response))
    as (reply & Ht & _).
  - reflexivity.
  - reflexivity.
  - discriminate.
  - exists reply. exact Ht.
Defined.

Lemma classify_thrown (env : Environment) (files : list File.t) :
  ∀ l e, classify env l files = inl e →
    ∃ file, file ∈ files ∧
      ((supported_image file = true ∧ readAsDataURL env file = inl e) ∨
       (text_file file = true ∧ readAsText env file = inl e)).
Proof.
  induction files as [|file rest IH]; intros l e; cbn [classify]; [done |].
  assert (∀ l0, classify env l0 rest = inl e →
            ∃ f, f ∈ file :: rest ∧
              ((supported_image f = true ∧ readAsDataURL env f = inl e) ∨
               (text_file f = true ∧ readAsText env f = inl e))) as Hrest.
  { intros l0 H0. destruct (IH l0 e H0) as (f & Hf & Hor).
    exists f. split; [by right | done]. }
  destruct (supported_image file) eqn:Ei.
  { destruct (readAsDataURL env file) as [e'|] eqn:Er; [| by apply Hrest].
    intros [= ->]. exists file. split; [by left | by left]. }
  destruct (text_file file) eqn:Et.
  { destruct (readAsText env file) as [e'|] eqn:Er; [| by apply Hrest].
    intros [= ->]. exists file. split; [by left | by right]. }
  by apply Hrest.
Qed.

(** X11. When the read of an attached file fails, the send issues no remote
    call, even with every file supported, and reports the failure in place
    of an unsupported file if there is one too.  A [FileReader] rejects with
    an event, which is no [Error]: the entry that ends the send is then the
    unknown-error message, and the key flag keeps its value. *)
Theorem failed_read_ends_the_send (env : Environment) (a : App) (file : File.t) :
  rejected_send a = false → inflight a = [] →
  (∀ f e, readAsDataURL env f = inl e → e = not_an_Error) →
  (∀ f e, readAsText env f = inl e → e = not_an_Error) →
  file ∈ uploadedFiles a →
  (supported_image file = true ∧ readAsDataURL env file = inl not_an_Error) ∨
  (text_file file = true ∧ readAsText env file = inl not_an_Error) →
  transcript (send env a) =
    transcript a ++
    [userMessage (inputText a) (uploadedFiles a);
     gemini_entry (final_text ("Lỗi: " +:+ UNKNOWN_ERROR))] ∧
  calls (send env a) = calls a ∧
  isKeySelected (send env a) = isKeySelected a ∧
  conversationState (send env a) = IDLE.
Proof.
  intros Hg Hi Hurl Htxt Hin Hfail.
  assert (∃ e, classify env (locals_of a) (uploadedFiles a) = inl e) as [e Ec].
  { destruct (classify env (locals_of a) (uploadedFiles a)) as [e | l'] eqn:Ec;
      [by exists e |].
    destruct (classify_reads env _ _ _ Ec file Hin) as [Hi1 Hi2].
    destruct Hfail as [[Hs Hr] | [Hs Hr]].
    - destruct (Hi1 Hs) as [result Hres]. by rewrite Hres in Hr.
    - destruct (Hi2 Hs) as [result Hres]. by rewrite Hres in Hr. }
  assert (e = not_an_Error) as ->.
  { destruct (classify_thrown env _ _ _ Ec) as (f & _ & [[_ Hr] | [_ Hr]]).
    - by apply (Hurl f).
    - by apply (Htxt f). }
  rewrite send_accepted by done. unfold complete_send. rewrite Ec.
  split; [| done].
  rewrite (transcript_caught not_an_Error _ _ _ (transcript_entered a)).
  by rewrite <- app_assoc.
Qed.

Lemma failed_read_ends_the_send_witness :
  calls (send {| readAsDataURL := λ _, inr "data:image/png;base64,QUJD";
                 readAsText := λ _, inl not_an_Error;
                 generateContent := λ _, inr example_response |}
              example_with_pdf) = [].
Proof.
  destruct (failed_read_ends_the_send
              {| readAsDataURL := λ _, inr "data:image/png;base64,QUJD";
                 readAsText := λ _, inl not_an_Error;
                 generateContent := λ _, inr example_response |}
              example_with_pdf notes_txt) as (_ & Hc & _).
  - reflexivity.
  - reflexivity.
  - intros f e. discriminate.
  - intros f e [= <-]. reflexivity.
  - apply list_elem_of_In. left. reflexivity.
  - right. split; reflexivity.
  - exact Hc.
Defined.

(** ** Entries are kept *)

Lemma removelast_prefix {A} (t : list A) : removelast t `prefix_of` t.
Proof.
  destruct t as [|x t] using rev_ind; [by exists [] |].
  rewrite removelast_snoc. by exists [x].
Qed.

Lemma for_files_keeps (c : Closure) (files : list File.t) :
  ∀ l a, removelast (transcript a) `prefix_of` transcript (for_files c l files a).
Proof.
  induction files as [|file rest IH]; intros l a; cbn [for_files].
  - unfold after_loop, call_generateContent.
    destruct (0 <? length (unsupportedFiles l)); [by eexists |].
    destruct (cl_chatMode c); try apply removelast_prefix. by eexists.
  - destruct (JS.array_includes _ _); [apply removelast_prefix |].
    destruct (JS.startsWith _ _); [apply removelast_prefix |]. apply IH.
Qed.

Lemma handleSend_keeps (a : App) :
  transcript a `prefix_of` transcript (handleSend a).
Proof.
  destruct (rejected_send a) eqn:Hg; [by rewrite handleSend_rejected |].
  rewrite handleSend_accepted by done.
  destruct (for_files_transcript (closure_of a) (uploadedFiles a) (locals_of a)
              (entered a) _ _ (transcript_entered a)) as [y ->].
  rewrite <- app_assoc. by eexists.
Qed.

(** X12. No event but the clearing of the history removes or rewrites an
    entry that is not the last one: the transcript without its last entry is
    a prefix of the transcript after the event.  While no send is in flight
    the last entry is kept too: the whole transcript is a prefix of the next
    one. *)
Theorem earlier_entries_are_kept (e : Event) (a : App) :
  e ≠ clear_history →
  removelast (transcript a) `prefix_of` transcript (apply_event e a) ∧
  (inflight a = [] → transcript a `prefix_of` transcript (apply_event e a)).
Proof.
  intros He.
  destruct e as [| key shift | value | selected | file | mode | | p | ok | i v];
    cbn [apply_event]; try done.
  - split; [etrans; [apply removelast_prefix |] |]; intros; apply handleSend_keeps.
  - unfold handleKeyDown. destruct (_ && _).
    + split; [etrans; [apply removelast_prefix |] |]; intros; apply handleSend_keeps.
    + split; [apply removelast_prefix | done].
  - split; [apply removelast_prefix | done].
  - destruct selected; (split; [apply removelast_prefix | done]).
  - split; [apply removelast_prefix | done].
  - split; [apply removelast_prefix | done].
  - split; [apply removelast_prefix | done].
  - destruct ok; (split; [apply removelast_prefix | done]).
  - split.
    + destruct (inflight a !! i) as [fr|]; [| apply removelast_prefix].
      unfold resume.
      destruct (awaiting fr), v; cbn [default];
        first [ apply removelast_prefix
              | apply (for_files_keeps _ _ _ (set_inflight (delete i) a))
              | by eexists
              | unfold catch_block; destruct (key_rejected _); by eexists ].
    + intros ->. done.
Qed.

Lemma earlier_entries_are_kept_witness :
  [userMessage "hi" []] `prefix_of`
    transcript (apply_event (settle 0 (response example_response)) example_busy).
Proof.
  apply (earlier_entries_are_kept (settle 0 (response example_response)) example_busy).
  discriminate.
Defined.

(** ** The data of an image part *)

Lemma includes_char_cons (c sep : ascii) (r : string) :
  JS.includes (String c r) (String sep "") = false ↔
  c ≠ sep ∧ JS.includes r (String sep "") = false.
Proof.
  cbn [JS.includes String.prefix]. rewrite orb_false_iff.
  destruct (Ascii.ascii_dec sep c) as [-> | Hne].
  - rewrite prefix_nil. split; [by intros [? _] | by intros [? _]].
  - split; [intros [_ ?]; by split | by intros [_ ?]].
Qed.

Lemma split_without_separator (s : string) (sep : ascii) :
  JS.includes s (String sep "") = false → JS.split s sep = [s].
Proof.
  induction s as [|c r IH]; [done |].
  intros [Hc Hr]%includes_char_cons. cbn [JS.split].
  rewrite (proj2 (Ascii.eqb_neq _ _) Hc). by rewrite IH.
Qed.

Lemma split_at_separator (before after : string) (sep : ascii) :
  JS.includes before (String sep "") = false →
  JS.split (before +:+ String sep after) sep = before :: JS.split after sep.
Proof.
  induction before as [|c r IH].
  - intros _. rewrite string_app_nil_l. cbn [JS.split]. by rewrite Ascii.eqb_refl.
  - intros [Hc Hr]%includes_char_cons. rewrite string_app_cons. cbn [JS.split].
    rewrite (proj2 (Ascii.eqb_neq _ _) Hc). by rewrite IH.
Qed.

(** X13. [fileToBase64] keeps the MIME type of the file and takes as data
    the text between the first and the second comma of what the reader
    returned: for a data URL, whose header and base64 payload hold no comma,
    the whole payload.  A result without a comma leaves the data undefined. *)
Theorem fileToBase64_takes_the_payload (file : File.t) (header payload tail : string) :
  JS.includes header "," = false → JS.includes payload "," = false →
  fileToBase64 file (header +:+ "," +:+ payload) =
    {| mimeType := File.type file; data := Some payload |} ∧
  fileToBase64 file (header +:+ "," +:+ payload +:+ "," +:+ tail) =
    {| mimeType := File.type file; data := Some payload |} ∧
  fileToBase64 file header = {| mimeType := File.type file; data := None |}.
Proof.
  intros Hh Hp. unfold fileToBase64. repeat split; f_equal.
  - change (header +:+ "," +:+ payload) with (header +:+ String "," payload).
    by rewrite split_at_separator, split_without_separator.
  - change (header +:+ "," +:+ payload +:+ "," +:+ tail)
      with (header +:+ String "," (payload +:+ String "," tail)).
    by rewrite !split_at_separator.
  - by rewrite split_without_separator.
Qed.

Lemma fileToBase64_takes_the_payload_witness :
  fileToBase64 photo_png "data:image/png;base64,QUJD" =
    {| mimeType := "image/png"; data := Some "QUJD" |}.
Proof.
  apply (fileToBase64_takes_the_payload photo_png "data:image/png;base64" "QUJD" "");
    reflexivity.
Defined.

(** ** The composer *)

(** X14. Attaching a file and removing it again gives back the list of
    attached files, when the file is a new object, none of those attached;
    the transcript, the input text and the rest of the state are the same
    too. *)
Theorem attach_then_remove (file : File.t) (a : App) :
  (∀ f, f ∈ uploadedFiles a → File.id f ≠ File.id file) →
  handleRemoveFile file (handleFileChange (Some [file]) a) = a.
Proof.
  intros Hnew. destruct a as [t cs cm it uf ks st inf cl].
  unfold handleRemoveFile, handleFileChange, setUploadedFiles. cbn in *. f_equal.
  rewrite List.filter_app. cbn. rewrite Nat.eqb_refl. cbn. rewrite app_nil_r.
  induction uf as [|f uf IH]; [done |]. cbn.
  rewrite (proj2 (Nat.eqb_neq _ _) (Hnew f ltac:(by left))). cbn.
  rewrite IH; [done |]. intros g Hg. apply Hnew. by right.
Qed.

Lemma attach_then_remove_witness :
  handleRemoveFile photo_png
    (handleFileChange (Some [photo_png]) (example_with_text mode_default)) =
  example_with_text mode_default.
Proof.
  apply attach_then_remove. intros f Hin. apply list_elem_of_In in Hin.
  destruct Hin as [<- | []]. discriminate.
Defined.

(** ** The preference store over time *)

Section useSettings_over_time.

Variable JSON_stringify : Settings → string.
Variable JSON_parse : string → option PartialSettings.

Lemma persist_in_sync (h : Hook) :
  Storage.disabled (localStorage h) = false →
  Storage.full (localStorage h) = false →
  in_sync JSON_stringify (persist_effect JSON_stringify h).
Proof.
  intros Hd Hf.
  destruct (persist_accepted JSON_stringify h Hd Hf) as (Hg & Hd' & Hf' & Hs).
  repeat split; try done. by rewrite Hs.
Qed.

Lemma update_in_sync (newSettings : PartialSettings) (h : Hook) :
  in_sync JSON_stringify h → in_sync JSON_stringify (update JSON_stringify newSettings h).
Proof.
  intros (Hd & Hf & _). unfold update.
  set (h1 := {| hook_settings := updateSettings newSettings (hook_settings h);
                localStorage := localStorage h; root_dark := root_dark h |}).
  pose proof (persist_in_sync h1 Hd Hf) as Hs.
  by destruct (decide _).
Qed.

Lemma update_settings_of (newSettings : PartialSettings) (h : Hook) :
  hook_settings (update JSON_stringify newSettings h) =
    updateSettings newSettings (hook_settings h).
Proof.
  unfold update, persist_effect.
  destruct (decide _); by destruct (Storage.setItem _ _ _).
Qed.

Lemma updates_in_sync (changes : list PartialSettings) :
  ∀ h, in_sync JSON_stringify h →
       in_sync JSON_stringify (updates JSON_stringify changes h) ∧
       hook_settings (updates JSON_stringify changes h) =
         fold_left (λ s newSettings, updateSettings newSettings s) changes
                   (hook_settings h).
Proof.
  induction changes as [|p ps IH]; intros h Hs; [done |].
  change (updates JSON_stringify (p :: ps) h)
    with (updates JSON_stringify ps (update JSON_stringify p h)).
  destruct (IH _ (update_in_sync p h Hs)) as [Hsync Heq].
  split; [done |]. rewrite Heq. cbn [fold_left]. by rewrite update_settings_of.
Qed.

(** X15. On a storage that accepts writes, and with a parser that reads back
    what the serializer writes, the store is in step with the hook after the
    first render and after every later update: the stored text is the
    current settings, which are the loaded ones with the updates applied in
    order, and a reload gives back exactly the current settings. *)
Theorem reload_returns_current_settings (ls : Storage.t) (root root' : bool)
    (changes : list PartialSettings) :
  (∀ s, JS.truthy (JSON_stringify s) = true) →
  (∀ s, JSON_parse (JSON_stringify s) = Some (complete s)) →
  Storage.disabled ls = false → Storage.full ls = false →
  let h := updates JSON_stringify changes (useSettings JSON_stringify JSON_parse ls root) in
  hook_settings h =
    fold_left (λ s newSettings, updateSettings newSettings s) changes
              (load JSON_parse ls) ∧
  Storage.getItem (localStorage h) SETTINGS_KEY =
    inr (Some (JSON_stringify (hook_settings h))) ∧
  hook_settings (reload JSON_stringify JSON_parse root' h) = hook_settings h.
Proof.
  intros Htruthy Hparse Hd Hf h.
  assert (in_sync JSON_stringify (useSettings JSON_stringify JSON_parse ls root)) as Hs0.
  { unfold useSettings.
    by apply (persist_in_sync {| hook_settings := load JSON_parse ls;
                                 localStorage := ls; root_dark := root |}). }
  assert (hook_settings (useSettings JSON_stringify JSON_parse ls root) =
          load JSON_parse ls) as Hl0.
  { unfold useSettings, persist_effect. cbn [hook_settings localStorage theme_effect].
    by destruct (Storage.setItem _ _ _). }
  destruct (updates_in_sync changes _ Hs0) as [(Hd' & Hf' & Hg) Hfold].
  fold h in Hd', Hf', Hg, Hfold.
  split; [by rewrite Hfold, Hl0 |]. split; [done |].
  unfold reload, useSettings, persist_effect.
  cbn [hook_settings localStorage theme_effect].
  assert (load JSON_parse (localStorage h) = hook_settings h) as ->.
  { unfold load. by rewrite Hg, Htruthy, Hparse, spread_complete. }
  by destruct (Storage.setItem _ _ _).
Qed.

(** X16. The root element carries the class [dark] exactly when the theme is
    not [light]: after the first render and after any sequence of updates,
    whatever the storage does. *)
Theorem root_class_follows_theme (ls : Storage.t) (root : bool)
    (changes : list PartialSettings) :
  let h := updates JSON_stringify changes (useSettings JSON_stringify JSON_parse ls root) in
  root_dark h = negb (bool_decide (theme (hook_settings h) = light)).
Proof.
  intros h. unfold h. clear h.
  assert (∀ h, root_dark h = negb (bool_decide (theme (hook_settings h) = light)) →
               ∀ p, root_dark (update JSON_stringify p h) =
                    negb (bool_decide (theme (hook_settings (update JSON_stringify p h)) = light)))
    as Hstep.
  { intros h Hh p. unfold update, persist_effect, theme_effect.
    cbn [hook_settings localStorage root_dark].
    destruct (decide (theme (updateSettings p (hook_settings h)) =
                      theme (hook_settings h))) as [He | Hne];
      destruct (Storage.setItem _ _ _);
      cbn [hook_settings localStorage root_dark];
      rewrite ?He; try done;
      by destruct (decide (theme (updateSettings p (hook_settings h)) = light));
         [rewrite bool_decide_eq_true_2 | rewrite bool_decide_eq_false_2]. }
  assert (∀ h, root_dark h = negb (bool_decide (theme (hook_settings h) = light)) →
               root_dark (updates JSON_stringify changes h) =
               negb (bool_decide (theme (hook_settings (updates JSON_stringify changes h)) = light)))
    as Hall.
  { induction changes as [|p ps IH]; intros h Hh; [done |].
    change (updates JSON_stringify (p :: ps) h)
      with (updates JSON_stringify ps (update JSON_stringify p h)).
    apply IH. by apply Hstep. }
  apply Hall. unfold useSettings, persist_effect, theme_effect.
  destruct (Storage.setItem _ _ _); cbn [hook_settings localStorage root_dark];
    by destruct (decide (theme (load JSON_parse ls) = light));
       [rewrite bool_decide_eq_true_2 | rewrite bool_decide_eq_false_2].
Qed.

(** X17. When the storage rejects the write, an update changes the settings
    in memory only: the stored text stays, and a reload brings back the
    settings stored before, not the update. *)
Theorem rejected_write_is_lost (h : Hook) (root : bool)
    (newSettings : PartialSettings) (stored : string) (before : Settings) :
  Storage.disabled (localStorage h) = false →
  Storage.full (localStorage h) = true →
  Storage.items (localStorage h) !! SETTINGS_KEY = Some stored →
  JS.truthy stored = true → JSON_parse stored = Some (complete before) →
  let h' := update JSON_stringify newSettings h in
  hook_settings h' = updateSettings newSettings (hook_settings h) ∧
  localStorage h' = localStorage h ∧
  hook_settings (reload JSON_stringify JSON_parse root h') = before.
Proof.
  intros Hd Hf Hitem Htruthy Hparse h'.
  assert (localStorage h' = localStorage h) as Hls.
  { unfold h', update, persist_effect, Storage.setItem. cbn [localStorage].
    rewrite Hd, Hf. cbn. by destruct (decide _). }
  split; [apply update_settings_of |]. split; [done |].
  unfold reload, useSettings, persist_effect, Storage.setItem.
  rewrite Hls. cbn [localStorage hook_settings theme_effect]. rewrite Hd, Hf. cbn.
  unfold load, Storage.getItem. rewrite Hd, Hitem, Htruthy, Hparse.
  apply spread_complete.
Qed.

(** X18. Mounting on a storage whose entry is missing, empty or not
    parsable gives the default settings, and on a storage that accepts
    writes the first render replaces the entry by the defaults.  On a
    disabled storage the defaults are used and nothing is stored. *)
Theorem mount_without_usable_entry (ls : Storage.t) (root : bool) :
  (Storage.items ls !! SETTINGS_KEY = None ∨
   Storage.items ls !! SETTINGS_KEY = Some "" ∨
   (∃ stored, Storage.items ls !! SETTINGS_KEY = Some stored ∧
              JSON_parse stored = None) ∨
   Storage.disabled ls = true) →
  let h := useSettings JSON_stringify JSON_parse ls root in
  hook_settings h = defaultSettings ∧ root_dark h = true ∧
  (Storage.disabled ls = false → Storage.full ls = false →
   Storage.items (localStorage h) !! SETTINGS_KEY =
     Some (JSON_stringify defaultSettings)) ∧
  (Storage.disabled ls = true → localStorage h = ls).
Proof.
  intros Hcase h.
  assert (load JSON_parse ls = defaultSettings) as Hload.
  { unfold load, Storage.getItem. destruct (Storage.disabled ls) eqn:Hd; [done |].
    destruct Hcase as [-> | [-> | [(stored & -> & Hp) | ?]]]; try done.
    rewrite Hp. by destruct (JS.truthy stored). }
  unfold h, useSettings, persist_effect, Storage.setItem. rewrite Hload.
  cbn [localStorage hook_settings].
  destruct (Storage.disabled ls) eqn:Hd; cbn; [done |].
  destruct (Storage.full ls) eqn:Hf; cbn; [done |].
  repeat split; try done. intros _ _. by rewrite lookup_insert_eq.
Qed.

End useSettings_over_time.

Lemma reload_returns_current_settings_witness :
  hook_settings
    (reload JSON.stringify JSON.parse false
       (updates JSON.stringify [theme_light; no_change]
          (useSettings JSON.stringify JSON.parse empty_storage true))) =
  updateSettings theme_light defaultSettings.
Proof.
  destruct (reload_returns_current_settings JSON.stringify JSON.parse
              empty_storage true false [theme_light; no_change])
    as (Hs & _ & Hr).
  - apply stringify_truthy.
  - apply parse_stringify.
  - reflexivity.
  - reflexivity.
  - rewrite Hr, Hs. reflexivity.
Defined.

Lemma rejected_write_is_lost_witness :
  hook_settings
    (reload JSON.stringify JSON.parse true
       (update JSON.stringify theme_light
          {| hook_settings := defaultSettings;
             localStorage :=
               {| Storage.items :=
                    {[ SETTINGS_KEY := JSON.stringify defaultSettings ]};
                  Storage.disabled := false; Storage.full := true |};
             root_dark := true |})) = defaultSettings.
Proof.
  apply (rejected_write_is_lost JSON.stringify JSON.parse _ true theme_light
           (JSON.stringify defaultSettings) defaultSettings).
  - reflexivity.
  - reflexivity.
  - apply lookup_singleton_eq.
  - reflexivity.
  - apply parse_stringify.
Defined.

Lemma mount_without_usable_entry_witness :
  hook_settings (useSettings JSON.stringify JSON.parse corrupt_storage false) =
    defaultSettings.
Proof.
  apply (mount_without_usable_entry JSON.stringify JSON.parse corrupt_storage false).
  right. right. left. exists "{oops". split; [apply lookup_singleton_eq |].
  vm_compute. reflexivity.
Defined.

(** X19. Updates compose field by field, the later one winning: two updates
    in a row are the update by the second object spread over the first.  An
    update repeated changes nothing more, the empty update changes nothing,
    and an update leaves alone every field it does not name. *)
Theorem updates_compose (first second : PartialSettings) (s : Settings) :
  updateSettings second (updateSettings first s) =
    updateSettings (overlay first second) s ∧
  updateSettings first (updateSettings first s) = updateSettings first s ∧
  updateSettings no_change s = s ∧
  (p_theme first = None → theme (updateSettings first s) = theme s) ∧
  (p_systemPrompt first = None →
   systemPrompt (updateSettings first s) = systemPrompt s) ∧
  (p_voice first = None → voice (updateSettings first s) = voice s) ∧
  (p_textModel first = None → textModel (updateSettings first s) = textModel s) ∧
  (p_sendOnEnter first = None →
   sendOnEnter (updateSettings first s) = sendOnEnter s).
Proof.
  destruct first as [[?|] [?|] [?|] [?|] [?|]],
           second as [[?|] [?|] [?|] [?|] [?|]], s; repeat split; done.
Qed.
